(** * Volume operation executor (kubernetes-15/pkg/volume/util/operationexecutor)

    A shallow embedding of [operation_executor.go]: the verb methods of
    [operationExecutor], the bulk-verification partitioning of
    [VerifyVolumesAreAttached] and the helper [hasMountRefs], together with
    the pending-operation registry they submit to. *)

From Stdlib Require Import ZArith String Ascii List Lia Permutation.
From stdpp Require Import gmap strings list fin_maps.

Local Open Scope string_scope.
Local Open Scope Z_scope.
Local Open Scope list_scope.

(** ** Go's [strings] package, on byte strings *)

Module Strings.

(** [strings.HasPrefix(s, prefix)] *)
Fixpoint HasPrefix (s prefix : string) : bool :=
  match prefix, s with
  | EmptyString, _ => true
  | String _ _, EmptyString => false
  | String c prefix', String d s' =>
      if Ascii.eqb c d then HasPrefix s' prefix' else false
  end.

(** [strings.Contains(s, substr)], that is [strings.Index(s, substr) >= 0]:
    some suffix of [s] starts with [substr]. *)
Fixpoint Contains (s substr : string) : bool :=
  HasPrefix s substr ||
  match s with
  | EmptyString => false
  | String _ s' => Contains s' substr
  end.

(** The textual reading of "[s] contains [substr] as a substring". *)
Definition is_substring (substr s : string) : Prop :=
  exists before after : string, s = (before ++ substr ++ after)%string.

End Strings.

(** ** Go's [int] (64 bits, two's complement) *)

Module GoInt.

Definition MaxInt : Z := 2 ^ 63 - 1.
Definition MinInt : Z := - 2 ^ 63.

(** The value an [int] expression takes after wrap-around. *)
Definition wrap (z : Z) : Z := (z + 2 ^ 63) mod 2 ^ 64 - 2 ^ 63.

Definition add (a b : Z) : Z := wrap (a + b).

End GoInt.

(** ** [hasMountRefs] *)

Module MountRefs.

(** The body of the [for _, ref := range mountRefs] loop, threading
    [count]. *)
Fixpoint countLoop (mountPath : string) (mountRefs : list string) (count : Z) : Z :=
  match mountRefs with
  | [] => count
  | ref :: rest =>
      countLoop mountPath rest
        (if negb (Strings.Contains ref mountPath)
         then GoInt.add count 1
         else count)
  end.

Definition hasMountRefs (mountPath : string) (mountRefs : list string) : bool :=
  0 <? countLoop mountPath mountRefs 0.

(** The references that do not contain the path. *)
Definition foreignRefs (mountPath : string) (mountRefs : list string) : list string :=
  List.filter (fun ref => negb (Strings.Contains ref mountPath)) mountRefs.

End MountRefs.

(** ** Errors, identifiers and the value objects of the executor *)

(** A Go [error] value: the two admission errors of the registry, or any
    other error (task construction, plugin lookup), identified by its text. *)
Inductive Err : Type :=
| OperationAlreadyExistsError (volumeName podName : string)
| ExponentialBackoffError (volumeName podName : string)
| OtherError (msg : string).

(** [error] is an interface value: [None] is [nil]. *)
Abbreviation error := (option Err) (only parsing).

(** [v1.UniqueVolumeName], [volumetypes.UniquePodName], [types.NodeName] and
    [types.UID] are all named string types. *)
Abbreviation UniqueVolumeName := string (only parsing).
Abbreviation UniquePodName := string (only parsing).
Abbreviation NodeName := string (only parsing).
Abbreviation UID := string (only parsing).

(** A non-nil [*volume.Spec], identified by its address; a nil-able one is an
    [option SpecPtr]. *)
Abbreviation SpecPtr := positive (only parsing).

(** The two queries the executor makes of a [volume.VolumePlugin]. *)
Record VolumePlugin : Type := {
  GetPluginName : string;
  SupportsBulkVolumeVerification : bool
}.

(** The types the executor only passes through, and the one helper of
    package [volumehelper] it calls. *)
Class Collaborators : Type := {
  Task : Type;                                (* func() error *)
  Pod : Type;                                 (* v1.Pod *)
  ActualStateOfWorldAttacherUpdater : Type;
  ActualStateOfWorldMounterUpdater : Type;
  MountInterface : Type;                      (* mount.Interface *)
  GetUniquePodName : Pod -> UniquePodName     (* volumehelper.GetUniquePodName *)
}.

Module VolumeToAttach.
Record t `{Collaborators} : Type := {
  VolumeName : UniqueVolumeName;
  VolumeSpec : option SpecPtr;
  NodeName : NodeName;
  ScheduledPods : list Pod
}.
End VolumeToAttach.

Module VolumeToMount.
Record t `{Collaborators} : Type := {
  VolumeName : UniqueVolumeName;
  PodName : UniquePodName;
  VolumeSpec : option SpecPtr;
  OuterVolumeSpecName : string;
  Pod : Pod;
  PluginIsAttachable : bool;
  VolumeGidValue : string;
  DevicePath : string;
  ReportedInUse : bool
}.
End VolumeToMount.

Module AttachedVolume.
Record t : Type := {
  VolumeName : UniqueVolumeName;
  VolumeSpec : option SpecPtr;
  NodeName : NodeName;
  PluginIsAttachable : bool;
  DevicePath : string
}.
End AttachedVolume.

Module MountedVolume.
Record t : Type := {
  PodName : UniquePodName;
  VolumeName : UniqueVolumeName;
  InnerVolumeSpecName : string;
  OuterVolumeSpecName : string;
  PluginName : string;
  PodUID : UID;
  VolumeGidValue : string
}.
End MountedVolume.

(** The [OperationGenerator] interface, with the plugin lookup reached
    through [GetVolumePluginMgr().FindPluginBySpec].  Every [Generate...Func]
    returns a possibly nil task and an error. *)
Class OperationGenerator `{Collaborators} : Type := {
  GenerateMountVolumeFunc :
    Z -> VolumeToMount.t -> ActualStateOfWorldMounterUpdater -> option Task * error;
  GenerateUnmountVolumeFunc :
    MountedVolume.t -> ActualStateOfWorldMounterUpdater -> option Task * error;
  GenerateAttachVolumeFunc :
    VolumeToAttach.t -> ActualStateOfWorldAttacherUpdater -> option Task * error;
  GenerateDetachVolumeFunc :
    AttachedVolume.t -> bool -> ActualStateOfWorldAttacherUpdater -> option Task * error;
  GenerateVolumesAreAttachedFunc :
    list AttachedVolume.t -> NodeName -> ActualStateOfWorldAttacherUpdater ->
    option Task * error;
  GenerateUnmountDeviceFunc :
    AttachedVolume.t -> ActualStateOfWorldMounterUpdater -> MountInterface ->
    option Task * error;
  GenerateVerifyControllerAttachedVolumeFunc :
    VolumeToMount.t -> NodeName -> ActualStateOfWorldAttacherUpdater ->
    option Task * error;
  GenerateBulkVolumeVerifyFunc :
    gmap string (list SpecPtr) -> string -> gmap positive UniqueVolumeName ->
    ActualStateOfWorldAttacherUpdater -> option Task * error;
  FindPluginBySpec : SpecPtr -> option VolumePlugin * error
}.

(** Modelled from the spec: the constants
    [nestedpendingoperations.EmptyUniquePodName] and [EmptyUniqueVolumeName],
    declared outside this package; the spec calls them the empty pod key and
    the empty VolumeIdentifier, and the executor's own call sites write the
    empty string for both. *)
Definition EmptyUniquePodName : UniquePodName := "".
Definition EmptyUniqueVolumeName : UniqueVolumeName := "".

(** The [nestedpendingoperations.NestedPendingOperations] interface over a
    registry state [R]: [Run] answers at once and leaves the new state. *)
Class NestedPendingOperations `{Collaborators} (R : Type) : Type := {
  Run : UniqueVolumeName -> UniquePodName -> option Task -> R -> error * R;
  IsOperationPending : UniqueVolumeName -> UniquePodName -> R -> bool
}.

(** Go's [for k, v := range m]: every entry once, in an order the language
    leaves open. *)
Class GoMapRange : Type := {
  range : forall {A : Type}, gmap string A -> list (string * A);
  range_perm : forall (A : Type) (m : gmap string A), range m ≡ₚ map_to_list m
}.

(** ** What the executor does to the outside: calls and log lines *)

(** A call through [oe.operationGenerator]. *)
Inductive GenCall `{Collaborators} : Type :=
| CallGenerateAttachVolumeFunc
    (volumeToAttach : VolumeToAttach.t) (asw : ActualStateOfWorldAttacherUpdater)
| CallGenerateDetachVolumeFunc
    (volumeToDetach : AttachedVolume.t) (verifySafeToDetach : bool)
    (asw : ActualStateOfWorldAttacherUpdater)
| CallGenerateVolumesAreAttachedFunc
    (attachedVolumes : list AttachedVolume.t) (nodeName : NodeName)
    (asw : ActualStateOfWorldAttacherUpdater)
| CallGenerateBulkVolumeVerifyFunc
    (pluginNodeVolumes : gmap string (list SpecPtr)) (pluginName : string)
    (volumeSpecMap : gmap positive UniqueVolumeName)
    (asw : ActualStateOfWorldAttacherUpdater)
| CallGenerateMountVolumeFunc
    (waitForAttachTimeout : Z) (volumeToMount : VolumeToMount.t)
    (asw : ActualStateOfWorldMounterUpdater)
| CallGenerateUnmountVolumeFunc
    (volumeToUnmount : MountedVolume.t) (asw : ActualStateOfWorldMounterUpdater)
| CallGenerateUnmountDeviceFunc
    (deviceToDetach : AttachedVolume.t) (asw : ActualStateOfWorldMounterUpdater)
    (mounter : MountInterface)
| CallGenerateVerifyControllerAttachedVolumeFunc
    (volumeToMount : VolumeToMount.t) (nodeName : NodeName)
    (asw : ActualStateOfWorldAttacherUpdater).

(** The five [glog.Errorf] lines of [VerifyVolumesAreAttached], with the
    values they format. *)
Inductive LogEntry : Type :=
| LogNilSpec (volumeName : UniqueVolumeName)
| LogFindPluginBySpecFailed
    (volumeName : UniqueVolumeName) (spec : SpecPtr) (nodeName : NodeName) (err : error)
| LogPerNodeError (node : NodeName) (nodeError : Err)
| LogGenerateBulkVolumeVerifyFuncError (pluginName : string) (err : Err)
| LogBulkRunError (pluginName : string) (err : Err).

Inductive Event `{Collaborators} : Type :=
| EvGenerate (call : GenCall)
| EvRun (volumeName : UniqueVolumeName) (podName : UniquePodName)
        (operationFunc : option Task)
| EvErrorf (entry : LogEntry).

(** ** The executor's computations

    A method of [operationExecutor] reads and updates the registry held in
    [oe.pendingOperations] and leaves, in order, the calls it made. *)

Definition M `{Collaborators} (R A : Type) : Type := R -> A * R * list Event.

Definition ret `{Collaborators} {R A : Type} (a : A) : M R A :=
  fun r => (a, r, []).

Definition bind `{Collaborators} {R A B : Type} (m : M R A) (k : A -> M R B) : M R B :=
  fun r =>
    let '(a, r1, t1) := m r in
    let '(b, r2, t2) := k a r1 in
    (b, r2, t1 ++ t2).

Declare Scope oe_scope.
Delimit Scope oe_scope with oe.
Notation "'let*' x := m 'in' k" := (bind m (fun x => k))
  (at level 10, x pattern, m at level 100, k at level 200) : oe_scope.

(** The result, the registry and the calls of a computation started on [r]. *)
Definition result `{Collaborators} {R A : Type} (m : M R A) (r : R) : A := fst (fst (m r)).
Definition registry_after `{Collaborators} {R A : Type} (m : M R A) (r : R) : R :=
  snd (fst (m r)).
Definition trace `{Collaborators} {R A : Type} (m : M R A) (r : R) : list Event :=
  snd (m r).

(** The submissions [(volumeName, podName, task)] among the calls. *)
Definition submissions `{Collaborators} (t : list Event)
  : list (UniqueVolumeName * UniquePodName * option Task) :=
  omap (fun e => match e with EvRun v p f => Some (v, p, f) | _ => None end) t.

(** The node lists handed to [GenerateVolumesAreAttachedFunc], the first
    statement of every [VerifyVolumesAreAttachedPerNode]. *)
Definition perNodeCalls `{Collaborators} (t : list Event)
  : list (NodeName * list AttachedVolume.t) :=
  omap (fun e => match e with
                 | EvGenerate (CallGenerateVolumesAreAttachedFunc vols node _) =>
                     Some (node, vols)
                 | _ => None
                 end) t.

(** The batches handed to [GenerateBulkVolumeVerifyFunc]. *)
Definition bulkCalls `{Collaborators} (t : list Event)
  : list (string * gmap string (list SpecPtr)) :=
  omap (fun e => match e with
                 | EvGenerate (CallGenerateBulkVolumeVerifyFunc pnv name _ _) =>
                     Some (name, pnv)
                 | _ => None
                 end) t.

Definition logged `{Collaborators} (t : list Event) : list LogEntry :=
  omap (fun e => match e with EvErrorf l => Some l | _ => None end) t.

Section Executor.
Context `{OG : OperationGenerator} {R : Type} `{!NestedPendingOperations R}.
Local Open Scope oe_scope.

(** [oe.operationGenerator.Generate...Func(...)]. *)
Definition generate {A : Type} (call : GenCall) (res : A) : M R A :=
  fun r => (res, r, [EvGenerate call]).

(** [oe.pendingOperations.Run(volumeName, podName, operationFunc)]. *)
Definition pendingOperations_Run
    (volumeName : UniqueVolumeName) (podName : UniquePodName)
    (operationFunc : option Task) : M R error :=
  fun r =>
    let '(err, r') := Run volumeName podName operationFunc r in
    (err, r', [EvRun volumeName podName operationFunc]).

Definition glog_Errorf (entry : LogEntry) : M R unit :=
  fun r => (tt, r, [EvErrorf entry]).

Definition AttachVolume
    (volumeToAttach : VolumeToAttach.t)
    (actualStateOfWorld : ActualStateOfWorldAttacherUpdater) : M R error :=
  let* (attachFunc, err) :=
    generate (CallGenerateAttachVolumeFunc volumeToAttach actualStateOfWorld)
             (GenerateAttachVolumeFunc volumeToAttach actualStateOfWorld) in
  match err with
  | Some e => ret (Some e)
  | None =>
      pendingOperations_Run
        (VolumeToAttach.VolumeName volumeToAttach) "" (* podName *) attachFunc
  end.

Definition DetachVolume
    (volumeToDetach : AttachedVolume.t)
    (verifySafeToDetach : bool)
    (actualStateOfWorld : ActualStateOfWorldAttacherUpdater) : M R error :=
  let* (detachFunc, err) :=
    generate (CallGenerateDetachVolumeFunc volumeToDetach verifySafeToDetach
                actualStateOfWorld)
             (GenerateDetachVolumeFunc volumeToDetach verifySafeToDetach
                actualStateOfWorld) in
  match err with
  | Some e => ret (Some e)
  | None =>
      pendingOperations_Run
        (AttachedVolume.VolumeName volumeToDetach) "" (* podName *) detachFunc
  end.

Definition VerifyVolumesAreAttachedPerNode
    (attachedVolumes : list AttachedVolume.t)
    (nodeName : NodeName)
    (actualStateOfWorld : ActualStateOfWorldAttacherUpdater) : M R error :=
  let* (volumesAreAttachedFunc, err) :=
    generate (CallGenerateVolumesAreAttachedFunc attachedVolumes nodeName
                actualStateOfWorld)
             (GenerateVolumesAreAttachedFunc attachedVolumes nodeName
                actualStateOfWorld) in
  match err with
  | Some e => ret (Some e)
  | None =>
      (* Give an empty UniqueVolumeName so that this operation could be
         executed concurrently. *)
      pendingOperations_Run "" (* volumeName *) "" (* podName *)
        volumesAreAttachedFunc
  end.
Definition MountVolume
    (waitForAttachTimeout : Z)
    (volumeToMount : VolumeToMount.t)
    (actualStateOfWorld : ActualStateOfWorldMounterUpdater) : M R error :=
  let* (mountFunc, err) :=
    generate (CallGenerateMountVolumeFunc waitForAttachTimeout volumeToMount
                actualStateOfWorld)
             (GenerateMountVolumeFunc waitForAttachTimeout volumeToMount
                actualStateOfWorld) in
  match err with
  | Some e => ret (Some e)
  | None =>
      let podName := EmptyUniquePodName in
      let podName :=
        if negb (VolumeToMount.PluginIsAttachable volumeToMount)
        then
          (* Non-attachable volume plugins can execute mount for multiple
             pods referencing the same volume in parallel *)
          GetUniquePodName (VolumeToMount.Pod volumeToMount)
        else podName in
      pendingOperations_Run (VolumeToMount.VolumeName volumeToMount) podName mountFunc
  end.

Definition UnmountVolume
    (volumeToUnmount : MountedVolume.t)
    (actualStateOfWorld : ActualStateOfWorldMounterUpdater) : M R error :=
  let* (unmountFunc, err) :=
    generate (CallGenerateUnmountVolumeFunc volumeToUnmount actualStateOfWorld)
             (GenerateUnmountVolumeFunc volumeToUnmount actualStateOfWorld) in
  match err with
  | Some e => ret (Some e)
  | None =>
      (* volumetypes.UniquePodName(volumeToUnmount.PodUID): a conversion
         between two string types *)
      let podName : UniquePodName := MountedVolume.PodUID volumeToUnmount in
      pendingOperations_Run (MountedVolume.VolumeName volumeToUnmount) podName
        unmountFunc
  end.

Definition UnmountDevice
    (deviceToDetach : AttachedVolume.t)
    (actualStateOfWorld : ActualStateOfWorldMounterUpdater)
    (mounter : MountInterface) : M R error :=
  let* (unmountDeviceFunc, err) :=
    generate (CallGenerateUnmountDeviceFunc deviceToDetach actualStateOfWorld mounter)
             (GenerateUnmountDeviceFunc deviceToDetach actualStateOfWorld mounter) in
  match err with
  | Some e => ret (Some e)
  | None =>
      pendingOperations_Run
        (AttachedVolume.VolumeName deviceToDetach) "" (* podName *) unmountDeviceFunc
  end.

Definition VerifyControllerAttachedVolume
    (volumeToMount : VolumeToMount.t)
    (nodeName : NodeName)
    (actualStateOfWorld : ActualStateOfWorldAttacherUpdater) : M R error :=
  let* (verifyControllerAttachedVolumeFunc, err) :=
    generate (CallGenerateVerifyControllerAttachedVolumeFunc volumeToMount nodeName
                actualStateOfWorld)
             (GenerateVerifyControllerAttachedVolumeFunc volumeToMount nodeName
                actualStateOfWorld) in
  match err with
  | Some e => ret (Some e)
  | None =>
      pendingOperations_Run
        (VolumeToMount.VolumeName volumeToMount) "" (* podName *)
        verifyControllerAttachedVolumeFunc
  end.

(** *** [VerifyVolumesAreAttached] *)

(** The two maps the first loop fills. *)
Record bulkMaps : Type := {
  bulkVerifyPluginsByNode : gmap string (gmap string (list SpecPtr));
  volumeSpecMapByPlugin : gmap string (gmap positive UniqueVolumeName)
}.

Definition emptyBulkMaps : bulkMaps :=
  {| bulkVerifyPluginsByNode := ∅; volumeSpecMapByPlugin := ∅ |}.

(** The branch [if volumePlugin.SupportsBulkVolumeVerification() { ... }]:
    a missing map entry reads as a fresh map or an empty slice. *)
Definition accumulate
    (pluginName : string) (node : NodeName) (volumeAttached : AttachedVolume.t)
    (spec : SpecPtr) (maps : bulkMaps) : bulkMaps :=
  let pluginNodes := default ∅ (bulkVerifyPluginsByNode maps !! pluginName) in
  let volumeSpecList := default [] (pluginNodes !! node) in
  let volumeSpecList := volumeSpecList ++ [spec] in
  let pluginNodes := <[node := volumeSpecList]> pluginNodes in
  let volumeSpecMap := default ∅ (volumeSpecMapByPlugin maps !! pluginName) in
  let volumeSpecMap :=
    <[spec := AttachedVolume.VolumeName volumeAttached]> volumeSpecMap in
  {| bulkVerifyPluginsByNode :=
       <[pluginName := pluginNodes]> (bulkVerifyPluginsByNode maps);
     volumeSpecMapByPlugin :=
       <[pluginName := volumeSpecMap]> (volumeSpecMapByPlugin maps) |}.

(** [for _, volumeAttached := range nodeAttachedVolumes { ... }] from the
    volumes [rest] still to visit: [continue] goes on with the tail,
    [break] returns. *)
Fixpoint nodeLoop
    (node : NodeName) (nodeAttachedVolumes : list AttachedVolume.t)
    (actualStateOfWorld : ActualStateOfWorldAttacherUpdater)
    (rest : list AttachedVolume.t) (maps : bulkMaps) : M R bulkMaps :=
  match rest with
  | [] => ret maps
  | volumeAttached :: rest' =>
      match AttachedVolume.VolumeSpec volumeAttached with
      | None =>
          let* _ := glog_Errorf (LogNilSpec (AttachedVolume.VolumeName volumeAttached)) in
          nodeLoop node nodeAttachedVolumes actualStateOfWorld rest' maps
      | Some spec =>
          match FindPluginBySpec spec with
          | (Some volumePlugin, None) =>
              let pluginName := GetPluginName volumePlugin in
              if SupportsBulkVolumeVerification volumePlugin
              then
                nodeLoop node nodeAttachedVolumes actualStateOfWorld rest'
                  (accumulate pluginName node volumeAttached spec maps)
              else
                (* If node doesn't support Bulk volume polling it is best
                   to poll individually *)
                let* nodeError :=
                  VerifyVolumesAreAttachedPerNode nodeAttachedVolumes node
                    actualStateOfWorld in
                let* _ :=
                  match nodeError with
                  | Some e => glog_Errorf (LogPerNodeError node e)
                  | None => ret tt
                  end in
                ret maps
          | (_, err) =>
              (* err != nil || volumePlugin == nil *)
              let* _ :=
                glog_Errorf
                  (LogFindPluginBySpecFailed
                     (AttachedVolume.VolumeName volumeAttached) spec
                     (AttachedVolume.NodeName volumeAttached) err) in
              nodeLoop node nodeAttachedVolumes actualStateOfWorld rest' maps
          end
      end
  end.

(** [for node, nodeAttachedVolumes := range attachedVolumes { ... }] over
    the entries in the order the range yields them. *)
Fixpoint nodesLoop
    (actualStateOfWorld : ActualStateOfWorldAttacherUpdater)
    (entries : list (NodeName * list AttachedVolume.t))
    (maps : bulkMaps) : M R bulkMaps :=
  match entries with
  | [] => ret maps
  | (node, nodeAttachedVolumes) :: entries' =>
      let* maps' :=
        nodeLoop node nodeAttachedVolumes actualStateOfWorld
          nodeAttachedVolumes maps in
      nodesLoop actualStateOfWorld entries' maps'
  end.

(** [for pluginName, pluginNodeVolumes := range bulkVerifyPluginsByNode
    { ... }]. *)
Fixpoint pluginsLoop
    (actualStateOfWorld : ActualStateOfWorldAttacherUpdater)
    (volumeSpecMapByPlugin : gmap string (gmap positive UniqueVolumeName))
    (entries : list (string * gmap string (list SpecPtr))) : M R unit :=
  match entries with
  | [] => ret tt
  | (pluginName, pluginNodeVolumes) :: entries' =>
      let volumeSpecMap := default ∅ (volumeSpecMapByPlugin !! pluginName) in
      let* (bulkVerifyVolumeFunc, err) :=
        generate (CallGenerateBulkVolumeVerifyFunc pluginNodeVolumes pluginName
                    volumeSpecMap actualStateOfWorld)
                 (GenerateBulkVolumeVerifyFunc pluginNodeVolumes pluginName
                    volumeSpecMap actualStateOfWorld) in
      let* _ :=
        match err with
        | Some e => glog_Errorf (LogGenerateBulkVolumeVerifyFuncError pluginName e)
        | None => ret tt
        end in
      (* Ugly hack to ensure - we don't do parallel bulk polling of same
         volume plugin *)
      let uniquePluginName : UniqueVolumeName := pluginName in
      let* err :=
        pendingOperations_Run uniquePluginName "" (* Pod Name *)
          bulkVerifyVolumeFunc in
      let* _ :=
        match err with
        | Some e => glog_Errorf (LogBulkRunError pluginName e)
        | None => ret tt
        end in
      pluginsLoop actualStateOfWorld volumeSpecMapByPlugin entries'
  end.

Context {GR : GoMapRange}.

(** The first loop of [VerifyVolumesAreAttached]: the partition. *)
Definition partitionAttachedVolumes
    (attachedVolumes : gmap string (list AttachedVolume.t))
    (actualStateOfWorld : ActualStateOfWorldAttacherUpdater) : M R bulkMaps :=
  nodesLoop actualStateOfWorld (range attachedVolumes) emptyBulkMaps.

(** The second loop: one submission per entry of
    [bulkVerifyPluginsByNode]. *)
Definition submitBulkVerifications
    (maps : bulkMaps)
    (actualStateOfWorld : ActualStateOfWorldAttacherUpdater) : M R unit :=
  pluginsLoop actualStateOfWorld (volumeSpecMapByPlugin maps)
    (range (bulkVerifyPluginsByNode maps)).

Definition VerifyVolumesAreAttached
    (attachedVolumes : gmap string (list AttachedVolume.t))
    (actualStateOfWorld : ActualStateOfWorldAttacherUpdater) : M R unit :=
  let* maps := partitionAttachedVolumes attachedVolumes actualStateOfWorld in
  submitBulkVerifications maps actualStateOfWorld.

(** [oe.IsOperationPending]. *)
Definition oe_IsOperationPending
    (volumeName : UniqueVolumeName) (podName : UniquePodName) (r : R) : bool :=
  IsOperationPending volumeName podName r.

(** *** Vocabulary for the statements below *)

(** The shape every verb method has: generate, give up on an error,
    otherwise submit under a key. *)
Definition verb (call : GenCall) (gen : option Task * error)
    (volumeName : UniqueVolumeName) (podName : UniquePodName) : M R error :=
  bind (generate call gen)
       (fun x => match x with
                 | (operationFunc, err) =>
                     match err with
                     | Some e => ret (Some e)
                     | None => pendingOperations_Run volumeName podName operationFunc
                     end
                 end).

(** A verb method that got [gen] from the generator submits once under
    [(volumeName, podName)], the generated task, when the generation
    succeeded, and submits nothing when it failed. *)
Definition submitsUnder
    (volumeName : UniqueVolumeName) (podName : UniquePodName)
    (gen : option Task * error) (m : M R error) (r : R) : Prop :=
  submissions (trace m r) =
  match snd gen with
  | None => [(volumeName, podName, fst gen)]
  | Some _ => []
  end.

(** A verb method returns the generation error and leaves the registry
    alone, or returns what [Run] answers at once. *)
Definition returnsImmediateAnswer
    (volumeName : UniqueVolumeName) (podName : UniquePodName)
    (gen : option Task * error) (m : M R error) (r : R) : Prop :=
  match snd gen with
  | Some e =>
      result m r = Some e /\ registry_after m r = r /\ submissions (trace m r) = []
  | None =>
      result m r = fst (Run volumeName podName (fst gen) r) /\
      registry_after m r = snd (Run volumeName podName (fst gen) r)
  end.

(** What the node loop does with one volume. *)
Inductive verdict : Type :=
| Skipped (entry : LogEntry)                       (* logged, [continue] *)
| Batched (pluginName : string) (spec : SpecPtr)   (* accumulated, [continue] *)
| FallsBack.                                       (* per-node call, [break] *)

Definition classify (volumeAttached : AttachedVolume.t) : verdict :=
  match AttachedVolume.VolumeSpec volumeAttached with
  | None => Skipped (LogNilSpec (AttachedVolume.VolumeName volumeAttached))
  | Some spec =>
      match FindPluginBySpec spec with
      | (Some volumePlugin, None) =>
          if SupportsBulkVolumeVerification volumePlugin
          then Batched (GetPluginName volumePlugin) spec
          else FallsBack
      | (_, err) =>
          Skipped (LogFindPluginBySpecFailed
                     (AttachedVolume.VolumeName volumeAttached) spec
                     (AttachedVolume.NodeName volumeAttached) err)
      end
  end.

Definition isFallsBack (v : verdict) : bool :=
  match v with FallsBack => true | _ => false end.

(** Some volume of the list resolves to a plugin without bulk
    verification. *)
Definition fallsBack (vols : list AttachedVolume.t) : bool :=
  existsb (fun v => isFallsBack (classify v)) vols.

(** The volumes ahead of the first one that falls back. *)
Fixpoint visited (vols : list AttachedVolume.t) : list AttachedVolume.t :=
  match vols with
  | [] => []
  | v :: rest => if isFallsBack (classify v) then [] else v :: visited rest
  end.

(** The specs, among [vols], of the volumes batched for [pluginName]. *)
Definition batchOf (pluginName : string) (vols : list AttachedVolume.t)
  : list SpecPtr :=
  omap (fun v => match classify v with
                 | Batched name spec =>
                     if bool_decide (name = pluginName) then Some spec else None
                 | _ => None
                 end) vols.

(** The lines logged for the volumes of [vols] that are skipped. *)
Definition skipLines (vols : list AttachedVolume.t) : list LogEntry :=
  omap (fun v => match classify v with Skipped l => Some l | _ => None end) vols.

(** The maps after the [accumulate] of every batched volume of [vols], in
    order. *)
Definition accumulateAll (node : NodeName) (vols : list AttachedVolume.t)
    (maps : bulkMaps) : bulkMaps :=
  foldl (fun maps v => match classify v with
                       | Batched name spec => accumulate name node v spec maps
                       | _ => maps
                       end) maps vols.

(** The submission the second loop makes for one entry of
    [bulkVerifyPluginsByNode]. *)
Definition bulkSubmission (asw : ActualStateOfWorldAttacherUpdater)
    (vsm : gmap string (gmap positive UniqueVolumeName))
    (entry : string * gmap string (list SpecPtr))
  : UniqueVolumeName * UniquePodName * option Task :=
  (fst entry, EmptyUniquePodName,
   fst (GenerateBulkVolumeVerifyFunc (snd entry) (fst entry)
          (default ∅ (vsm !! fst entry)) asw)).

(** The volume has a spec, and the spec resolves, without error, to
    [plugin]. *)
Definition resolvesTo (plugin : VolumePlugin) (v : AttachedVolume.t) : Prop :=
  exists spec : SpecPtr,
    AttachedVolume.VolumeSpec v = Some spec /\
    FindPluginBySpec spec = (Some plugin, None).

(** The list is empty or begins with a volume of [plugin]. *)
Definition beginsWith (plugin : VolumePlugin) (vols : list AttachedVolume.t) : Prop :=
  match vols with
  | [] => True
  | v :: _ => resolvesTo plugin v
  end.

(** The batch held for a plugin on a node, empty when there is none. *)
Definition batchAt (maps : bulkMaps) (pluginName : string) (node : NodeName)
  : list SpecPtr :=
  default [] (default ∅ (bulkVerifyPluginsByNode maps !! pluginName) !! node).

(** No empty batch and no plugin without a batch is ever stored. *)
Definition compact (maps : bulkMaps) : Prop :=
  forall (pluginName : string) (pluginNodes : gmap string (list SpecPtr)),
    bulkVerifyPluginsByNode maps !! pluginName = Some pluginNodes ->
    pluginNodes <> ∅ /\
    forall (node : NodeName) (l : list SpecPtr), pluginNodes !! node = Some l -> l <> [].

(** Several per-node verifications, one after the other. *)
Fixpoint verifyEachNode
    (nodes : list (NodeName * list AttachedVolume.t))
    (actualStateOfWorld : ActualStateOfWorldAttacherUpdater) : M R (list error) :=
  match nodes with
  | [] => ret []
  | (node, vols) :: nodes' =>
      let* err := VerifyVolumesAreAttachedPerNode vols node actualStateOfWorld in
      let* errs := verifyEachNode nodes' actualStateOfWorld in
      ret (err :: errs)
  end.
End Executor.

(** ** The pending-operation registry *)

Module nestedpendingoperations.

(** Modelled from the spec: a registry entry ("PendingOperation"), package
    [nestedpendingoperations] not being part of the sources at hand.  Per
    key it holds the running flag, the count of consecutive failures and
    the end of the backoff window the last failure opened. *)
Record operation : Type := {
  volumeName : UniqueVolumeName;
  podName : UniquePodName;
  operationPending : bool;
  failures : nat;
  retryAfter : Z
}.

(** Modelled from the spec: the registry, "a process-lifetime cache" of
    entries that are created lazily and never deleted, its backoff
    configuration and the clock it reads. *)
Record registry : Type := {
  operations : list operation;
  exponentialBackOffOnError : bool;
  initialDurationBeforeRetry : Z;
  now : Z
}.

(** Modelled from the spec: [NewNestedPendingOperations], an empty
    registry. *)
Definition NewNestedPendingOperations
    (exponentialBackOffOnError : bool) (initialDurationBeforeRetry now : Z)
  : registry :=
  {| operations := [];
     exponentialBackOffOnError := exponentialBackOffOnError;
     initialDurationBeforeRetry := initialDurationBeforeRetry;
     now := now |}.

(** Modelled from the spec: the conflict rule, "two submissions conflict if
    they share the same VolumeIdentifier AND ( either PodIdentifier is
    empty OR both PodIdentifiers are equal )". *)
Definition conflict
    (volumeName podName volumeName' podName' : string) : bool :=
  bool_decide (volumeName = volumeName') &&
  (bool_decide (podName = EmptyUniquePodName) ||
   bool_decide (podName' = EmptyUniquePodName) ||
   bool_decide (podName = podName')).

Definition sameKey (volumeName' podName' : string) (op : operation) : bool :=
  bool_decide (volumeName op = volumeName') && bool_decide (podName op = podName').

(** Modelled from the spec: conflict detection, "a conflicting key is
    already running", which the "always-unique" empty VolumeIdentifier
    bypasses. *)
Definition conflictsWithRunning
    (volumeName' podName' : string) (ops : list operation) : bool :=
  negb (bool_decide (volumeName' = EmptyUniqueVolumeName)) &&
  existsb (fun op => operationPending op &&
                     conflict (volumeName op) (podName op) volumeName' podName')
          ops.

(** The first entry satisfying [p], replaced by its image under [f]. *)
Fixpoint updateFirst
    (p : operation -> bool) (f : operation -> operation) (ops : list operation)
  : list operation :=
  match ops with
  | [] => []
  | op :: ops' => if p op then f op :: ops' else op :: updateFirst p f ops'
  end.

Definition newOperation (volumeName' podName' : string) (now : Z) : operation :=
  {| volumeName := volumeName'; podName := podName'; operationPending := true;
     failures := 0; retryAfter := now |}.

Definition markPending (op : operation) : operation :=
  {| volumeName := volumeName op; podName := podName op; operationPending := true;
     failures := failures op; retryAfter := retryAfter op |}.

Definition withOperations (r : registry) (ops : list operation) : registry :=
  {| operations := ops;
     exponentialBackOffOnError := exponentialBackOffOnError r;
     initialDurationBeforeRetry := initialDurationBeforeRetry r;
     now := now r |}.

(** Modelled from the spec: the accept/reject decision of [Run].  A
    submission under the empty VolumeIdentifier is accepted as a key of its
    own; one whose key conflicts with a running entry is rejected with
    [OperationAlreadyExistsError]; one whose exact key is inside its
    backoff window is rejected too; any other is accepted and its entry
    (created on first use) marked busy.  A rejection leaves the registry as
    it was. *)
Definition tryStart (volumeName' podName' : string) (r : registry)
  : error * registry :=
  if bool_decide (volumeName' = EmptyUniqueVolumeName) then
    (None, withOperations r
             (operations r ++ [newOperation volumeName' podName' (now r)]))
  else if conflictsWithRunning volumeName' podName' (operations r) then
    (Some (OperationAlreadyExistsError volumeName' podName'), r)
  else
    match find (sameKey volumeName' podName') (operations r) with
    | Some op =>
        if now r <? retryAfter op then
          (Some (ExponentialBackoffError volumeName' podName'), r)
        else
          (None, withOperations r
                   (updateFirst (sameKey volumeName' podName') markPending
                      (operations r)))
    | None =>
        (None, withOperations r
                 (operations r ++ [newOperation volumeName' podName' (now r)]))
    end.

(** Modelled from the spec: [Run(volumeKey, podKey, task)].  The task is
    spawned on its own unit of execution when accepted; its end is the
    later step [operationComplete]. *)
Definition Run {Task : Type}
    (volumeName' podName' : string) (operationFunc : option Task) (r : registry)
  : error * registry :=
  tryStart volumeName' podName' r.

(** Modelled from the spec: [IsOperationPending], the non-blocking
    inspection. *)
Definition IsOperationPending (volumeName' podName' : string) (r : registry) : bool :=
  conflictsWithRunning volumeName' podName' (operations r).

(** Modelled from the spec: the exponential backoff window after the
    [n]-th consecutive failure. *)
Definition durationBeforeRetry (initial : Z) (n : nat) : Z :=
  initial * 2 ^ Z.of_nat (n - 1).

(** Modelled from the spec: the end of a task.  "On task failure: records
    the error, increments a failure counter for the key, and (if
    configured) computes an exponential backoff window"; "on success:
    resets the failure counter and clears the busy flag". *)
Definition complete (r : registry) (err : error) (op : operation) : operation :=
  match err with
  | None =>
      {| volumeName := volumeName op; podName := podName op;
         operationPending := false; failures := 0; retryAfter := now r |}
  | Some _ =>
      {| volumeName := volumeName op; podName := podName op;
         operationPending := false; failures := S (failures op);
         retryAfter :=
           if exponentialBackOffOnError r
           then now r + durationBeforeRetry (initialDurationBeforeRetry r)
                          (S (failures op))
           else now r |}
  end.

Definition operationComplete
    (volumeName' podName' : string) (err : error) (r : registry) : registry :=
  withOperations r
    (updateFirst (fun op => operationPending op && sameKey volumeName' podName' op)
                 (complete r err) (operations r)).

Definition advance (dt : Z) (r : registry) : registry :=
  {| operations := operations r;
     exponentialBackOffOnError := exponentialBackOffOnError r;
     initialDurationBeforeRetry := initialDurationBeforeRetry r;
     now := now r + dt |}.

(** What can happen to a registry: a submission is decided, a running task
    ends with some outcome, time passes. *)
Inductive step : registry -> registry -> Prop :=
| step_Run (volumeName' podName' : string) (r : registry) :
    step r (snd (tryStart volumeName' podName' r))
| step_operationComplete (volumeName' podName' : string) (err : error) (r : registry) :
    step r (operationComplete volumeName' podName' err r)
| step_advance (dt : Z) (r : registry) :
    0 <= dt -> step r (advance dt r).

Inductive reachable : registry -> Prop :=
| reachable_new (backoff : bool) (initial now : Z) :
    reachable (NewNestedPendingOperations backoff initial now)
| reachable_step (r r' : registry) :
    reachable r -> step r r' -> reachable r'.

(** The entries running under exactly the key [(volumeName', podName')]. *)
Definition runningUnder (volumeName' podName' : string) (r : registry)
  : list operation :=
  filter (fun op => operationPending op = true /\ volumeName op = volumeName'
                    /\ podName op = podName')
         (operations r).

(** The running entries. *)
Definition running (r : registry) : list operation :=
  filter (fun op => operationPending op = true) (operations r).

(** No running entry under a non-empty volume name conflicts with a running
    entry behind it in the list. *)
Fixpoint exclusive (ops : list operation) : Prop :=
  match ops with
  | [] => True
  | op :: ops' =>
      (operationPending op = true ->
       volumeName op <> EmptyUniqueVolumeName ->
       conflictsWithRunning (volumeName op) (podName op) ops' = false) /\
      exclusive ops'
  end.

End nestedpendingoperations.

#[export] Instance registry_NestedPendingOperations `{Collaborators}
  : NestedPendingOperations nestedpendingoperations.registry :=
  {| Run := nestedpendingoperations.Run;
     IsOperationPending := nestedpendingoperations.IsOperationPending |}.

(** ** Fixtures: a fake generator and plugin table, as a unit test sets up *)

Module Fixtures.

(** Tasks are named by the generator that built them, pods by their UID
    ([volumehelper.GetUniquePodName] converts [pod.UID]). *)
#[export] Instance fakeCollaborators : Collaborators :=
  {| Task := string;
     Pod := string;
     ActualStateOfWorldAttacherUpdater := unit;
     ActualStateOfWorldMounterUpdater := unit;
     MountInterface := unit;
     GetUniquePodName := fun uid => uid |}.

Definition pluginA : VolumePlugin :=
  {| GetPluginName := "example.com/plugin-a"; SupportsBulkVolumeVerification := true |}.
Definition pluginB : VolumePlugin :=
  {| GetPluginName := "example.com/plugin-b"; SupportsBulkVolumeVerification := false |}.

(** Specs 1, 2 and 5 belong to plugin A, specs 3, 4 and 6 to plugin B,
    and no plugin matches any other spec. *)
Definition fakeFindPluginBySpec (spec : SpecPtr) : option VolumePlugin * error :=
  match spec with
  | 1 | 2 | 5 => (Some pluginA, None)
  | 3 | 4 | 6 => (Some pluginB, None)
  | _ => (None, Some (OtherError "no volume plugin matched"))
  end%positive.

#[export] Instance fakeOperationGenerator : OperationGenerator :=
  {| GenerateMountVolumeFunc := fun _ _ _ => (Some "mount", None);
     GenerateUnmountVolumeFunc := fun _ _ => (Some "unmount", None);
     GenerateAttachVolumeFunc := fun _ _ => (Some "attach", None);
     GenerateDetachVolumeFunc := fun _ _ _ => (Some "detach", None);
     GenerateVolumesAreAttachedFunc := fun _ _ _ => (Some "volumesAreAttached", None);
     GenerateUnmountDeviceFunc := fun _ _ _ => (Some "unmountDevice", None);
     GenerateVerifyControllerAttachedVolumeFunc :=
       fun _ _ _ => (Some "verifyControllerAttachedVolume", None);
     GenerateBulkVolumeVerifyFunc := fun _ _ _ _ => (Some "bulkVolumeVerify", None);
     FindPluginBySpec := fakeFindPluginBySpec |}.

(** A generator that cannot build any task. *)
Definition failingOperationGenerator : OperationGenerator :=
  {| GenerateMountVolumeFunc := fun _ _ _ => (None, Some (OtherError "mount"));
     GenerateUnmountVolumeFunc := fun _ _ => (None, Some (OtherError "unmount"));
     GenerateAttachVolumeFunc := fun _ _ => (None, Some (OtherError "attach"));
     GenerateDetachVolumeFunc := fun _ _ _ => (None, Some (OtherError "detach"));
     GenerateVolumesAreAttachedFunc :=
       fun _ _ _ => (None, Some (OtherError "volumesAreAttached"));
     GenerateUnmountDeviceFunc :=
       fun _ _ _ => (None, Some (OtherError "unmountDevice"));
     GenerateVerifyControllerAttachedVolumeFunc :=
       fun _ _ _ => (None, Some (OtherError "verifyControllerAttachedVolume"));
     GenerateBulkVolumeVerifyFunc :=
       fun _ _ _ _ => (None, Some (OtherError "bulkVolumeVerify"));
     FindPluginBySpec := fakeFindPluginBySpec |}.

(** One order a range may take: the map's entries as [map_to_list] lists
    them. *)
#[export] Instance listedRange : GoMapRange :=
  {| range := fun A m => map_to_list m;
     range_perm := fun A m => Permutation_refl (map_to_list m) |}.

(** Another: the same entries backwards. *)
Definition reversedRange : GoMapRange :=
  {| range := fun A m => rev (map_to_list m);
     range_perm := fun A m => Permutation_sym (Permutation_rev (map_to_list m)) |}.

Definition attachedVolume (name : string) (spec : positive) (node : string)
  : AttachedVolume.t :=
  {| AttachedVolume.VolumeName := name;
     AttachedVolume.VolumeSpec := Some spec;
     AttachedVolume.NodeName := node;
     AttachedVolume.PluginIsAttachable := true;
     AttachedVolume.DevicePath := "/dev/" ++ name |}.

Definition volumeToMount (name : string) (pod : string) (attachable : bool)
  : VolumeToMount.t :=
  {| VolumeToMount.VolumeName := name;
     VolumeToMount.PodName := pod;
     VolumeToMount.VolumeSpec := Some 1%positive;
     VolumeToMount.OuterVolumeSpecName := name;
     VolumeToMount.Pod := pod;
     VolumeToMount.PluginIsAttachable := attachable;
     VolumeToMount.VolumeGidValue := "";
     VolumeToMount.DevicePath := "";
     VolumeToMount.ReportedInUse := true |}.

(** Two nodes, each holding a plugin-B volume ahead of a plugin-A one. *)
Definition nodesWithBFirst : gmap string (list AttachedVolume.t) :=
  insert "node1" [attachedVolume "b1" 3 "node1"; attachedVolume "a1" 1 "node1"]
    (insert "node2" [attachedVolume "b2" 4 "node2"; attachedVolume "a2" 2 "node2"] ∅).

(** The same volumes with the plugin-A volume first on each node. *)
Definition nodesWithAFirst : gmap string (list AttachedVolume.t) :=
  insert "node1" [attachedVolume "a1" 1 "node1"; attachedVolume "b1" 3 "node1"]
    (insert "node2" [attachedVolume "a2" 2 "node2"; attachedVolume "b2" 4 "node2"] ∅).

(** One node whose only volume has a spec no plugin matches. *)
Definition nodeWithUnknownPlugin : gmap string (list AttachedVolume.t) :=
  insert "node1" [attachedVolume "u1" 7 "node1"] ∅.

Definition emptyRegistry : nestedpendingoperations.registry :=
  nestedpendingoperations.NewNestedPendingOperations true 500 0.

End Fixtures.


(** ** More vocabulary *)

(** The calls an executor makes, log lines left out: the generator calls and
    the submissions, in order. *)
Definition calls `{Collaborators} (t : list Event) : list Event :=
  List.filter (fun e => match e with EvErrorf _ => false | _ => true end) t.

Section ExecutorVocabulary.
Context `{OG : OperationGenerator}.

(** The volume has no spec, or [FindPluginBySpec] gives an error or no
    plugin for its spec: the condition under which the node loop logs and
    goes on. *)
Definition unresolved (v : AttachedVolume.t) : Prop :=
  match AttachedVolume.VolumeSpec v with
  | None => True
  | Some spec =>
      fst (FindPluginBySpec spec) = None \/ snd (FindPluginBySpec spec) <> None
  end.

End ExecutorVocabulary.

(** * Properties *)

(** ** [strings.Contains] finds exactly the substrings *)

Section StringsFacts.
Import Strings.

Lemma append_String (c : ascii) (s1 s2 : string) :
  (String c s1 ++ s2)%string = String c (s1 ++ s2)%string.
Proof. reflexivity. Qed.

Lemma HasPrefix_spec (prefix s : string) :
  HasPrefix s prefix = true <-> exists after : string, s = (prefix ++ after)%string.
Proof.
  revert s. induction prefix as [|c prefix IH]; intros s; simpl.
  - destruct s; split; eauto.
  - destruct s as [|d s]; simpl.
    + split; [discriminate | intros [after Heq]; discriminate].
    + destruct (Ascii.eqb_spec c d) as [->|Hne].
      * rewrite IH.
        split; intros [after Heq]; exists after; rewrite append_String in *; congruence.
      * split; [discriminate|].
        intros [after Heq]. rewrite append_String in Heq. congruence.
Qed.

Lemma Contains_unfold (s substr : string) :
  Contains s substr =
  HasPrefix s substr ||
  match s with EmptyString => false | String _ s' => Contains s' substr end.
Proof. destruct s; reflexivity. Qed.

Lemma Contains_spec (s substr : string) :
  Contains s substr = true <-> is_substring substr s.
Proof.
  unfold is_substring. split.
  - induction s as [|c s IH]; rewrite Contains_unfold, orb_true_iff.
    + intros [Hp|Hf]; [|discriminate].
      apply HasPrefix_spec in Hp as [after ->]. exists EmptyString, after. reflexivity.
    + intros [Hp|Hc].
      * apply HasPrefix_spec in Hp as [after ->]. exists EmptyString, after. reflexivity.
      * destruct (IH Hc) as (before & after & ->).
        exists (String c before), after. reflexivity.
  - intros (before & after & ->).
    induction before as [|c before IH]; rewrite Contains_unfold, orb_true_iff.
    + left. apply HasPrefix_spec. exists after. reflexivity.
    + right. exact IH.
Qed.

End StringsFacts.

(** ** [hasMountRefs] *)

Section MountRefsFacts.
Import MountRefs.

Lemma wrap_in_range (z : Z) : GoInt.MinInt <= z <= GoInt.MaxInt -> GoInt.wrap z = z.
Proof.
  unfold GoInt.wrap, GoInt.MinInt, GoInt.MaxInt. intros Hz.
  rewrite Z.mod_small by lia. lia.
Qed.

Lemma countLoop_counts (mountPath : string) (mountRefs : list string) (count : Z) :
  0 <= count ->
  count + Z.of_nat (List.length mountRefs) <= GoInt.MaxInt ->
  countLoop mountPath mountRefs count =
  count + Z.of_nat (List.length (foreignRefs mountPath mountRefs)).
Proof.
  revert count. induction mountRefs as [|ref rest IH]; intros count Hpos Hfit.
  - simpl. lia.
  - cbn [countLoop foreignRefs List.filter]. fold (foreignRefs mountPath rest).
    cbn [List.length] in Hfit.
    destruct (negb (Strings.Contains ref mountPath)).
    + unfold GoInt.add. rewrite wrap_in_range by (unfold GoInt.MinInt; lia).
      rewrite IH by lia. cbn [List.length]. lia.
    + apply IH; lia.
Qed.

End MountRefsFacts.

(** C9. For every mount path and every slice of reference paths (a slice
    holds at most [MaxInt] elements), [hasMountRefs] answers true exactly
    when some reference does not contain the path as a substring; on the two
    inputs of the spec it answers true and false. *)
Theorem hasMountRefs_iff_foreign_ref :
  (forall (mountPath : string) (mountRefs : list string),
      Z.of_nat (List.length mountRefs) <= GoInt.MaxInt ->
      MountRefs.hasMountRefs mountPath mountRefs = true <->
      exists ref : string,
        In ref mountRefs /\ ~ Strings.is_substring mountPath ref) /\
  MountRefs.hasMountRefs "/mnt/pod123" ["/mnt/pod123/sub"; "/mnt/other"] = true /\
  MountRefs.hasMountRefs "/mnt/pod123" ["/mnt/pod123/sub"] = false.
Proof.
  split; [|split; reflexivity].
  intros mountPath mountRefs Hfit. unfold MountRefs.hasMountRefs.
  rewrite countLoop_counts by lia. rewrite Z.ltb_lt.
  unfold MountRefs.foreignRefs. split.
  - intros Hlen.
    destruct (List.filter _ mountRefs) as [|ref l] eqn:Hf; [simpl in Hlen; lia|].
    assert (Hin : In ref (List.filter
                            (fun ref => negb (Strings.Contains ref mountPath)) mountRefs))
      by (rewrite Hf; left; reflexivity).
    apply filter_In in Hin as [Hin Hnot]. exists ref. split; [exact Hin|].
    rewrite <- Contains_spec. apply negb_true_iff in Hnot. congruence.
  - intros (ref & Hin & Hnot).
    assert (Hin' : In ref (List.filter
                             (fun ref => negb (Strings.Contains ref mountPath)) mountRefs)).
    { apply filter_In. split; [exact Hin|]. apply negb_true_iff.
      destruct (Strings.Contains ref mountPath) eqn:Hc; [|reflexivity].
      exfalso. apply Hnot, Contains_spec, Hc. }
    destruct (List.filter _ mountRefs); [destruct Hin'|]. cbn [List.length]. lia.
Qed.

Lemma hasMountRefs_iff_foreign_ref_witness :
  Z.of_nat (List.length ["/mnt/pod123/sub"; "/mnt/other"]) <= GoInt.MaxInt /\
  (MountRefs.hasMountRefs "/mnt/pod123" ["/mnt/pod123/sub"; "/mnt/other"] = true <->
   exists ref : string,
     In ref ["/mnt/pod123/sub"; "/mnt/other"] /\
     ~ Strings.is_substring "/mnt/pod123" ref).
Proof.
  assert (Hfit : Z.of_nat (List.length ["/mnt/pod123/sub"; "/mnt/other"]) <= GoInt.MaxInt)
    by (vm_compute; discriminate).
  split; [exact Hfit|].
  exact (proj1 hasMountRefs_iff_foreign_ref "/mnt/pod123"
           ["/mnt/pod123/sub"; "/mnt/other"] Hfit).
Defined.

(** ** Computations compose *)

Section MonadFacts.
Context `{Collaborators} {R : Type}.

Lemma run_bind {A B : Type} (m : M R A) (k : A -> M R B) (r : R) :
  bind m k r =
  (result (k (result m r)) (registry_after m r),
   registry_after (k (result m r)) (registry_after m r),
   trace m r ++ trace (k (result m r)) (registry_after m r)).
Proof.
  unfold bind, result, registry_after, trace.
  destruct (m r) as [[a r1] t1]; simpl.
  destruct (k a r1) as [[b r2] t2]; reflexivity.
Qed.

Lemma result_bind {A B : Type} (m : M R A) (k : A -> M R B) (r : R) :
  result (bind m k) r = result (k (result m r)) (registry_after m r).
Proof. unfold result at 1. rewrite run_bind. reflexivity. Qed.

Lemma registry_after_bind {A B : Type} (m : M R A) (k : A -> M R B) (r : R) :
  registry_after (bind m k) r = registry_after (k (result m r)) (registry_after m r).
Proof. unfold registry_after at 1. rewrite run_bind. reflexivity. Qed.

Lemma trace_bind {A B : Type} (m : M R A) (k : A -> M R B) (r : R) :
  trace (bind m k) r = trace m r ++ trace (k (result m r)) (registry_after m r).
Proof. unfold trace at 1. rewrite run_bind. reflexivity. Qed.

Lemma result_ret {A : Type} (a : A) (r : R) : result (ret a) r = a.
Proof. reflexivity. Qed.

Lemma registry_after_ret {A : Type} (a : A) (r : R) : registry_after (ret a) r = r.
Proof. reflexivity. Qed.

Lemma trace_ret {A : Type} (a : A) (r : R) : trace (ret a) r = [].
Proof. reflexivity. Qed.

Lemma submissions_app (t1 t2 : list Event) :
  submissions (t1 ++ t2) = submissions t1 ++ submissions t2.
Proof. apply omap_app. Qed.

Lemma perNodeCalls_app (t1 t2 : list Event) :
  perNodeCalls (t1 ++ t2) = perNodeCalls t1 ++ perNodeCalls t2.
Proof. apply omap_app. Qed.

Lemma bulkCalls_app (t1 t2 : list Event) :
  bulkCalls (t1 ++ t2) = bulkCalls t1 ++ bulkCalls t2.
Proof. apply omap_app. Qed.

Lemma logged_app (t1 t2 : list Event) :
  logged (t1 ++ t2) = logged t1 ++ logged t2.
Proof. apply omap_app. Qed.

End MonadFacts.

(** ** The verb methods *)

Section VerbFacts.
Context `{OG : OperationGenerator} {R : Type} `{!NestedPendingOperations R}.

Lemma verb_run (call : GenCall) (gen : option Task * error)
    (volumeName : UniqueVolumeName) (podName : UniquePodName) (r : R) :
  verb call gen volumeName podName r =
  match snd gen with
  | Some e => (Some e, r, [EvGenerate call])
  | None =>
      (fst (Run volumeName podName (fst gen) r),
       snd (Run volumeName podName (fst gen) r),
       [EvGenerate call; EvRun volumeName podName (fst gen)])
  end.
Proof.
  unfold verb, bind, generate, pendingOperations_Run, ret.
  destruct gen as [operationFunc [e|]]; simpl; [reflexivity|].
  destruct (Run volumeName podName operationFunc r); reflexivity.
Qed.

Lemma verb_submitsUnder (call : GenCall) (gen : option Task * error)
    (volumeName : UniqueVolumeName) (podName : UniquePodName) (r : R) :
  submitsUnder volumeName podName gen (verb call gen volumeName podName) r.
Proof.
  unfold submitsUnder, trace. rewrite verb_run. destruct (snd gen); reflexivity.
Qed.

Lemma verb_returnsImmediateAnswer (call : GenCall) (gen : option Task * error)
    (volumeName : UniqueVolumeName) (podName : UniquePodName) (r : R) :
  returnsImmediateAnswer volumeName podName gen (verb call gen volumeName podName) r.
Proof.
  unfold returnsImmediateAnswer, result, registry_after, trace. rewrite verb_run.
  destruct (snd gen); simpl; auto.
Qed.

Lemma AttachVolume_verb volumeToAttach asw :
  AttachVolume volumeToAttach asw =
  verb (CallGenerateAttachVolumeFunc volumeToAttach asw)
       (GenerateAttachVolumeFunc volumeToAttach asw)
       (VolumeToAttach.VolumeName volumeToAttach) "".
Proof. reflexivity. Qed.

Lemma DetachVolume_verb volumeToDetach verifySafeToDetach asw :
  DetachVolume volumeToDetach verifySafeToDetach asw =
  verb (CallGenerateDetachVolumeFunc volumeToDetach verifySafeToDetach asw)
       (GenerateDetachVolumeFunc volumeToDetach verifySafeToDetach asw)
       (AttachedVolume.VolumeName volumeToDetach) "".
Proof. reflexivity. Qed.

Lemma VerifyVolumesAreAttachedPerNode_verb attachedVolumes nodeName asw :
  VerifyVolumesAreAttachedPerNode attachedVolumes nodeName asw =
  verb (CallGenerateVolumesAreAttachedFunc attachedVolumes nodeName asw)
       (GenerateVolumesAreAttachedFunc attachedVolumes nodeName asw)
       "" "".
Proof. reflexivity. Qed.

Lemma MountVolume_verb waitForAttachTimeout volumeToMount asw :
  MountVolume waitForAttachTimeout volumeToMount asw =
  verb (CallGenerateMountVolumeFunc waitForAttachTimeout volumeToMount asw)
       (GenerateMountVolumeFunc waitForAttachTimeout volumeToMount asw)
       (VolumeToMount.VolumeName volumeToMount)
       (if VolumeToMount.PluginIsAttachable volumeToMount
        then EmptyUniquePodName
        else GetUniquePodName (VolumeToMount.Pod volumeToMount)).
Proof.
  unfold MountVolume, verb.
  destruct (VolumeToMount.PluginIsAttachable volumeToMount); reflexivity.
Qed.

Lemma UnmountVolume_verb volumeToUnmount asw :
  UnmountVolume volumeToUnmount asw =
  verb (CallGenerateUnmountVolumeFunc volumeToUnmount asw)
       (GenerateUnmountVolumeFunc volumeToUnmount asw)
       (MountedVolume.VolumeName volumeToUnmount)
       (MountedVolume.PodUID volumeToUnmount).
Proof. reflexivity. Qed.

Lemma UnmountDevice_verb deviceToDetach asw mounter :
  UnmountDevice deviceToDetach asw mounter =
  verb (CallGenerateUnmountDeviceFunc deviceToDetach asw mounter)
       (GenerateUnmountDeviceFunc deviceToDetach asw mounter)
       (AttachedVolume.VolumeName deviceToDetach) "".
Proof. reflexivity. Qed.

Lemma VerifyControllerAttachedVolume_verb volumeToMount nodeName asw :
  VerifyControllerAttachedVolume volumeToMount nodeName asw =
  verb (CallGenerateVerifyControllerAttachedVolumeFunc volumeToMount nodeName asw)
       (GenerateVerifyControllerAttachedVolumeFunc volumeToMount nodeName asw)
       (VolumeToMount.VolumeName volumeToMount) "".
Proof. reflexivity. Qed.

End VerbFacts.

Section VerbClaims.
Context `{OG : OperationGenerator} {R : Type} `{!NestedPendingOperations R}.

(** C3. On every input and every registry, [AttachVolume], [DetachVolume],
    [UnmountDevice] and [VerifyControllerAttachedVolume] submit the task
    they generated under (the operation's [VolumeName], the empty pod name),
    and [UnmountVolume] submits under ([volumeToUnmount.VolumeName],
    [volumeToUnmount.PodUID] as a pod name); none of them submits anything
    else. *)
Theorem node_scoped_verbs_use_the_empty_pod_name :
  (forall volumeToAttach asw (r : R),
      submitsUnder (VolumeToAttach.VolumeName volumeToAttach) EmptyUniquePodName
        (GenerateAttachVolumeFunc volumeToAttach asw)
        (AttachVolume volumeToAttach asw) r) /\
  (forall volumeToDetach verifySafeToDetach asw (r : R),
      submitsUnder (AttachedVolume.VolumeName volumeToDetach) EmptyUniquePodName
        (GenerateDetachVolumeFunc volumeToDetach verifySafeToDetach asw)
        (DetachVolume volumeToDetach verifySafeToDetach asw) r) /\
  (forall deviceToDetach asw mounter (r : R),
      submitsUnder (AttachedVolume.VolumeName deviceToDetach) EmptyUniquePodName
        (GenerateUnmountDeviceFunc deviceToDetach asw mounter)
        (UnmountDevice deviceToDetach asw mounter) r) /\
  (forall volumeToMount nodeName asw (r : R),
      submitsUnder (VolumeToMount.VolumeName volumeToMount) EmptyUniquePodName
        (GenerateVerifyControllerAttachedVolumeFunc volumeToMount nodeName asw)
        (VerifyControllerAttachedVolume volumeToMount nodeName asw) r) /\
  (forall volumeToUnmount asw (r : R),
      submitsUnder (MountedVolume.VolumeName volumeToUnmount)
        (MountedVolume.PodUID volumeToUnmount)
        (GenerateUnmountVolumeFunc volumeToUnmount asw)
        (UnmountVolume volumeToUnmount asw) r).
Proof.
  repeat split; intros.
  - rewrite AttachVolume_verb. apply verb_submitsUnder.
  - rewrite DetachVolume_verb. apply verb_submitsUnder.
  - rewrite UnmountDevice_verb. apply verb_submitsUnder.
  - rewrite VerifyControllerAttachedVolume_verb. apply verb_submitsUnder.
  - rewrite UnmountVolume_verb. apply verb_submitsUnder.
Qed.

(** C8. Each of the six verb methods returns the generation error, with the
    registry untouched and nothing submitted, when the generator fails, and
    otherwise returns exactly what [Run] answers at once under the method's
    key; the task itself is only handed over. *)
Theorem verbs_return_generation_error_or_immediate_answer :
  (forall volumeToAttach asw (r : R),
      returnsImmediateAnswer (VolumeToAttach.VolumeName volumeToAttach) ""
        (GenerateAttachVolumeFunc volumeToAttach asw)
        (AttachVolume volumeToAttach asw) r) /\
  (forall volumeToDetach verifySafeToDetach asw (r : R),
      returnsImmediateAnswer (AttachedVolume.VolumeName volumeToDetach) ""
        (GenerateDetachVolumeFunc volumeToDetach verifySafeToDetach asw)
        (DetachVolume volumeToDetach verifySafeToDetach asw) r) /\
  (forall waitForAttachTimeout volumeToMount asw (r : R),
      returnsImmediateAnswer (VolumeToMount.VolumeName volumeToMount)
        (if VolumeToMount.PluginIsAttachable volumeToMount
         then EmptyUniquePodName
         else GetUniquePodName (VolumeToMount.Pod volumeToMount))
        (GenerateMountVolumeFunc waitForAttachTimeout volumeToMount asw)
        (MountVolume waitForAttachTimeout volumeToMount asw) r) /\
  (forall volumeToUnmount asw (r : R),
      returnsImmediateAnswer (MountedVolume.VolumeName volumeToUnmount)
        (MountedVolume.PodUID volumeToUnmount)
        (GenerateUnmountVolumeFunc volumeToUnmount asw)
        (UnmountVolume volumeToUnmount asw) r) /\
  (forall deviceToDetach asw mounter (r : R),
      returnsImmediateAnswer (AttachedVolume.VolumeName deviceToDetach) ""
        (GenerateUnmountDeviceFunc deviceToDetach asw mounter)
        (UnmountDevice deviceToDetach asw mounter) r) /\
  (forall volumeToMount nodeName asw (r : R),
      returnsImmediateAnswer (VolumeToMount.VolumeName volumeToMount) ""
        (GenerateVerifyControllerAttachedVolumeFunc volumeToMount nodeName asw)
        (VerifyControllerAttachedVolume volumeToMount nodeName asw) r).
Proof.
  repeat split; intros.
  - rewrite AttachVolume_verb. apply verb_returnsImmediateAnswer.
  - rewrite DetachVolume_verb. apply verb_returnsImmediateAnswer.
  - rewrite MountVolume_verb. apply verb_returnsImmediateAnswer.
  - rewrite UnmountVolume_verb. apply verb_returnsImmediateAnswer.
  - rewrite UnmountDevice_verb. apply verb_returnsImmediateAnswer.
  - rewrite VerifyControllerAttachedVolume_verb. apply verb_returnsImmediateAnswer.
Qed.

End VerbClaims.

(** ** The conflict rule *)

Section ConflictFacts.
Import nestedpendingoperations.

Lemma conflict_sym (v p v' p' : string) : conflict v p v' p' = conflict v' p' v p.
Proof.
  unfold conflict.
  repeat case_bool_decide; simpl; try reflexivity; congruence.
Qed.

Lemma conflict_true (v p v' p' : string) :
  conflict v p v' p' = true <->
  v = v' /\ (p = EmptyUniquePodName \/ p' = EmptyUniquePodName \/ p = p').
Proof.
  unfold conflict. rewrite andb_true_iff, !orb_true_iff, !bool_decide_eq_true.
  tauto.
Qed.

Lemma conflict_same_key (v p : string) : conflict v p v p = true.
Proof. apply conflict_true. auto. Qed.

Lemma conflict_empty_pod (v p : string) : conflict v EmptyUniquePodName v p = true.
Proof. apply conflict_true. auto. Qed.

Lemma conflict_distinct_pods (v p p' : string) :
  p <> EmptyUniquePodName -> p' <> EmptyUniquePodName -> p <> p' ->
  conflict v p v p' = false.
Proof.
  intros Hp Hp' Hne. apply not_true_is_false. rewrite conflict_true. tauto.
Qed.

End ConflictFacts.

Section MountClaims.
Context `{OG : OperationGenerator} {R : Type} `{!NestedPendingOperations R}.

(** C2, as the code has it.  [MountVolume] submits under ([VolumeName], the
    empty pod name) when [PluginIsAttachable] is set and under
    ([VolumeName], the unique pod name of [volumeToMount.Pod]) when it is
    not; so the keys of two mount calls for one volume and two pods with
    different unique pod names, neither of them empty, conflict exactly when
    the plugin is attachable. *)
Theorem MountVolume_key_follows_attachability :
  (forall waitForAttachTimeout volumeToMount asw (r : R),
      submitsUnder (VolumeToMount.VolumeName volumeToMount)
        (if VolumeToMount.PluginIsAttachable volumeToMount
         then EmptyUniquePodName
         else GetUniquePodName (VolumeToMount.Pod volumeToMount))
        (GenerateMountVolumeFunc waitForAttachTimeout volumeToMount asw)
        (MountVolume waitForAttachTimeout volumeToMount asw) r) /\
  (forall timeout1 timeout2 mount1 mount2 asw1 asw2 (r1 r2 : R)
          volumeName1 podName1 task1 volumeName2 podName2 task2,
      submissions (trace (MountVolume timeout1 mount1 asw1) r1) =
        [(volumeName1, podName1, task1)] ->
      submissions (trace (MountVolume timeout2 mount2 asw2) r2) =
        [(volumeName2, podName2, task2)] ->
      VolumeToMount.VolumeName mount1 = VolumeToMount.VolumeName mount2 ->
      VolumeToMount.PluginIsAttachable mount1 = VolumeToMount.PluginIsAttachable mount2 ->
      GetUniquePodName (VolumeToMount.Pod mount1) <>
        GetUniquePodName (VolumeToMount.Pod mount2) ->
      GetUniquePodName (VolumeToMount.Pod mount1) <> EmptyUniquePodName ->
      GetUniquePodName (VolumeToMount.Pod mount2) <> EmptyUniquePodName ->
      nestedpendingoperations.conflict volumeName1 podName1 volumeName2 podName2 =
      VolumeToMount.PluginIsAttachable mount1).
Proof.
  split.
  - intros. rewrite MountVolume_verb. apply verb_submitsUnder.
  - intros timeout1 timeout2 mount1 mount2 asw1 asw2 r1 r2
           volumeName1 podName1 task1 volumeName2 podName2 task2
           Hsub1 Hsub2 Hvol Hatt Hpods Hpod1 Hpod2.
    rewrite MountVolume_verb in Hsub1, Hsub2.
    pose proof (verb_submitsUnder
                  (CallGenerateMountVolumeFunc timeout1 mount1 asw1)
                  (GenerateMountVolumeFunc timeout1 mount1 asw1)
                  (VolumeToMount.VolumeName mount1)
                  (if VolumeToMount.PluginIsAttachable mount1
                   then EmptyUniquePodName
                   else GetUniquePodName (VolumeToMount.Pod mount1)) r1) as H1.
    pose proof (verb_submitsUnder
                  (CallGenerateMountVolumeFunc timeout2 mount2 asw2)
                  (GenerateMountVolumeFunc timeout2 mount2 asw2)
                  (VolumeToMount.VolumeName mount2)
                  (if VolumeToMount.PluginIsAttachable mount2
                   then EmptyUniquePodName
                   else GetUniquePodName (VolumeToMount.Pod mount2)) r2) as H2.
    unfold submitsUnder in H1, H2. rewrite Hsub1 in H1. rewrite Hsub2 in H2.
    destruct (snd (GenerateMountVolumeFunc timeout1 mount1 asw1)); [discriminate|].
    destruct (snd (GenerateMountVolumeFunc timeout2 mount2 asw2)); [discriminate|].
    injection H1 as -> -> _. injection H2 as -> -> _.
    rewrite <- Hatt, <- Hvol.
    destruct (VolumeToMount.PluginIsAttachable mount1).
    + apply conflict_empty_pod.
    + apply conflict_distinct_pods; assumption.
Qed.

End MountClaims.

Lemma MountVolume_key_follows_attachability_witness :
  nestedpendingoperations.conflict "vol" "" "vol" "" = true /\
  nestedpendingoperations.conflict "vol" "pod-a" "vol" "pod-b" = false.
Proof.
  split.
  - refine (proj2 (MountVolume_key_follows_attachability
                     (OG := Fixtures.fakeOperationGenerator)
                     (R := nestedpendingoperations.registry))
              0 0 (Fixtures.volumeToMount "vol" "pod-a" true)
              (Fixtures.volumeToMount "vol" "pod-b" true) tt tt
              Fixtures.emptyRegistry Fixtures.emptyRegistry
              "vol" "" (Some "mount") "vol" "" (Some "mount") _ _ _ _ _ _ _);
      vm_compute; first [reflexivity | discriminate].
  - refine (proj2 (MountVolume_key_follows_attachability
                     (OG := Fixtures.fakeOperationGenerator)
                     (R := nestedpendingoperations.registry))
              0 0 (Fixtures.volumeToMount "vol" "pod-a" false)
              (Fixtures.volumeToMount "vol" "pod-b" false) tt tt
              Fixtures.emptyRegistry Fixtures.emptyRegistry
              "vol" "pod-a" (Some "mount") "vol" "pod-b" (Some "mount") _ _ _ _ _ _ _);
      vm_compute; first [reflexivity | discriminate].
Defined.

(** C2 does not hold of every pod.  For a plugin that is not attachable, a
    pod whose unique pod name is empty is mounted under ([VolumeName], the
    empty pod name), a key that conflicts with the mount of the same volume
    for any other pod: on the registry the second mount is turned away with
    [OperationAlreadyExistsError]. *)
Lemma non_attachable_mount_for_an_unnamed_pod_conflicts :
  let unnamed := Fixtures.volumeToMount "vol" "" false in
  let other := Fixtures.volumeToMount "vol" "pod-b" false in
  let first := MountVolume (OG := Fixtures.fakeOperationGenerator) 0 unnamed tt in
  let second := MountVolume (OG := Fixtures.fakeOperationGenerator) 0 other tt in
  VolumeToMount.PluginIsAttachable unnamed = false /\
  VolumeToMount.PluginIsAttachable other = false /\
  VolumeToMount.VolumeName unnamed = VolumeToMount.VolumeName other /\
  GetUniquePodName (VolumeToMount.Pod unnamed) <>
    GetUniquePodName (VolumeToMount.Pod other) /\
  submissions (trace first Fixtures.emptyRegistry) = [("vol", "", Some "mount")] /\
  submissions (trace second Fixtures.emptyRegistry) = [("vol", "pod-b", Some "mount")] /\
  nestedpendingoperations.conflict "vol" "" "vol" "pod-b" = true /\
  result first Fixtures.emptyRegistry = None /\
  result second (registry_after first Fixtures.emptyRegistry) =
    Some (OperationAlreadyExistsError "vol" "pod-b").
Proof.
  intros unnamed other first second.
  repeat split; try reflexivity. vm_compute. discriminate.
Qed.

(** ** The registry keeps running entries apart *)

Section RegistryFacts.
Import nestedpendingoperations.

Lemma conflictsWithRunning_false (v p : string) (ops : list operation) :
  conflictsWithRunning v p ops = false <->
  v = EmptyUniqueVolumeName \/
  forall op, In op ops -> operationPending op = true ->
             conflict (volumeName op) (podName op) v p = false.
Proof.
  unfold conflictsWithRunning. rewrite andb_false_iff, negb_false_iff, bool_decide_eq_true.
  split; (intros [Hv|Hops]; [left; exact Hv | right]).
  - intros op Hin Hpend.
    destruct (conflict (volumeName op) (podName op) v p) eqn:Hc; [|reflexivity].
    assert (Hex : existsb (fun op => operationPending op &&
                                     conflict (volumeName op) (podName op) v p) ops = true).
    { apply existsb_exists. exists op. rewrite Hpend, Hc. auto. }
    congruence.
  - apply not_true_is_false. intros Hex. apply existsb_exists in Hex as (op & Hin & Hop).
    apply andb_true_iff in Hop as [Hpend Hc]. rewrite (Hops op Hin Hpend) in Hc.
    discriminate.
Qed.

Lemma conflictsWithRunning_true (v p : string) (ops : list operation) :
  conflictsWithRunning v p ops = true <->
  v <> EmptyUniqueVolumeName /\
  exists op, In op ops /\ operationPending op = true /\
             conflict (volumeName op) (podName op) v p = true.
Proof.
  unfold conflictsWithRunning.
  rewrite andb_true_iff, negb_true_iff, bool_decide_eq_false, existsb_exists.
  split; intros [Hv (op & Hin & Hop)]; (split; [exact Hv|]); exists op.
  - apply andb_true_iff in Hop. tauto.
  - rewrite andb_true_iff. tauto.
Qed.

Lemma In_updateFirst (q : operation -> bool) (f : operation -> operation)
    (ops : list operation) (op : operation) :
  In op (updateFirst q f ops) ->
  In op ops \/ exists op0, In op0 ops /\ q op0 = true /\ op = f op0.
Proof.
  induction ops as [|op0 ops IH]; simpl; [tauto|].
  destruct (q op0) eqn:Hq; simpl.
  - intros [<-|Hin]; [right; exists op0; auto | left; auto].
  - intros [<-|Hin]; [left; auto|].
    destruct (IH Hin) as [Hin'|(op1 & Hin' & Hq1 & ->)]; [left; auto|].
    right. exists op1. auto.
Qed.

Lemma exclusive_append (ops : list operation) (v p : string) (t : Z) :
  exclusive ops ->
  conflictsWithRunning v p ops = false ->
  exclusive (ops ++ [newOperation v p t]).
Proof.
  intros Hex Hfree. induction ops as [|op ops IH]; simpl.
  - split; [|exact I]. intros _ _. apply conflictsWithRunning_false. right.
    intros op [].
  - destruct Hex as [Hhead Htail].
    assert (Hfree' : conflictsWithRunning v p ops = false).
    { apply conflictsWithRunning_false.
      apply conflictsWithRunning_false in Hfree as [Hv|Hall]; [left; exact Hv|].
      right. intros op' Hin. apply Hall. right. exact Hin. }
    split; [|apply IH; assumption].
    intros Hpend Hvol. apply conflictsWithRunning_false. right.
    intros op' Hin Hpend'. apply in_app_or in Hin as [Hin|[<-|[]]].
    + specialize (Hhead Hpend Hvol).
      apply conflictsWithRunning_false in Hhead as [Hv|Hall]; [contradiction|].
      apply Hall; assumption.
    + simpl. rewrite conflict_sym.
      apply conflictsWithRunning_false in Hfree as [->|Hall].
      * apply not_true_is_false. rewrite conflict_true. intros [Heq _]. auto.
      * apply Hall; [left; reflexivity | exact Hpend].
Qed.

Lemma exclusive_markPending (ops : list operation) (v p : string) :
  exclusive ops ->
  conflictsWithRunning v p ops = false ->
  exclusive (updateFirst (sameKey v p) markPending ops).
Proof.
  intros Hex Hfree. induction ops as [|op ops IH]; simpl; [exact I|].
  destruct Hex as [Hhead Htail].
  assert (Hfree' : conflictsWithRunning v p ops = false).
  { apply conflictsWithRunning_false.
    apply conflictsWithRunning_false in Hfree as [Hv|Hall]; [left; exact Hv|].
    right. intros op' Hin. apply Hall. right. exact Hin. }
  destruct (sameKey v p op) eqn:Hkey; simpl.
  - split; [|exact Htail]. intros _ _.
    unfold sameKey in Hkey. apply andb_true_iff in Hkey as [Hv Hp].
    apply bool_decide_eq_true in Hv, Hp. rewrite Hv, Hp. exact Hfree'.
  - split; [|apply IH; assumption].
    intros Hpend Hvol. apply conflictsWithRunning_false. right.
    intros op' Hin Hpend'.
    apply In_updateFirst in Hin as [Hin|(op0 & Hin & Hkey0 & ->)].
    + specialize (Hhead Hpend Hvol).
      apply conflictsWithRunning_false in Hhead as [Hv|Hall]; [contradiction|].
      apply Hall; assumption.
    + simpl. unfold sameKey in Hkey0. apply andb_true_iff in Hkey0 as [Hv Hp].
      apply bool_decide_eq_true in Hv, Hp. rewrite Hv, Hp, conflict_sym.
      apply conflictsWithRunning_false in Hfree as [->|Hall].
      * apply not_true_is_false. rewrite conflict_true. intros [Heq _]. auto.
      * apply Hall; [left; reflexivity | exact Hpend].
Qed.

Lemma exclusive_complete (ops : list operation) (q : operation -> bool)
    (r : registry) (err : error) :
  exclusive ops -> exclusive (updateFirst q (complete r err) ops).
Proof.
  intros Hex. induction ops as [|op ops IH]; simpl; [exact I|].
  destruct Hex as [Hhead Htail]. destruct (q op) eqn:Hq; simpl.
  - split; [|exact Htail]. destruct err; simpl; discriminate.
  - split; [|apply IH; exact Htail].
    intros Hpend Hvol. apply conflictsWithRunning_false. right.
    intros op' Hin Hpend'.
    apply In_updateFirst in Hin as [Hin|(op0 & Hin & Hq0 & ->)].
    + specialize (Hhead Hpend Hvol).
      apply conflictsWithRunning_false in Hhead as [Hv|Hall]; [contradiction|].
      apply Hall; assumption.
    + destruct err; simpl in Hpend'; discriminate.
Qed.

Lemma tryStart_exclusive (v p : string) (r : registry) :
  exclusive (operations r) -> exclusive (operations (snd (tryStart v p r))).
Proof.
  intros Hex. unfold tryStart.
  case_bool_decide as Hv.
  - simpl. apply exclusive_append; [exact Hex|].
    apply conflictsWithRunning_false. left. exact Hv.
  - destruct (conflictsWithRunning v p (operations r)) eqn:Hfree; [exact Hex|].
    destruct (find (sameKey v p) (operations r)) as [op|].
    + destruct (now r <? retryAfter op); [exact Hex|].
      simpl. apply exclusive_markPending; assumption.
    + simpl. apply exclusive_append; assumption.
Qed.

Lemma step_exclusive (r r' : registry) :
  step r r' -> exclusive (operations r) -> exclusive (operations r').
Proof.
  intros Hstep Hex. destruct Hstep as [v p r|v p err r|dt r Hdt].
  - apply tryStart_exclusive. exact Hex.
  - simpl. apply exclusive_complete. exact Hex.
  - exact Hex.
Qed.

Lemma reachable_exclusive (r : registry) : reachable r -> exclusive (operations r).
Proof.
  induction 1 as [backoff initial t|r r' _ IH Hstep]; [exact I|].
  eapply step_exclusive; eassumption.
Qed.

End RegistryFacts.

Section RegistryClaims.
Import nestedpendingoperations.

Lemma exclusive_lookup_lt (ops : list operation) (i j : nat) (op1 op2 : operation) :
  exclusive ops -> (i < j)%nat ->
  ops !! i = Some op1 -> ops !! j = Some op2 ->
  operationPending op1 = true -> operationPending op2 = true ->
  volumeName op1 <> EmptyUniqueVolumeName ->
  conflict (volumeName op1) (podName op1) (volumeName op2) (podName op2) = false.
Proof.
  revert i j. induction ops as [|op ops IH]; intros i j Hex Hlt Hi Hj Hp1 Hp2 Hv.
  - discriminate.
  - destruct Hex as [Hhead Htail]. destruct j as [|j]; [lia|].
    destruct i as [|i]; simpl in Hi, Hj.
    + injection Hi as ->. specialize (Hhead Hp1 Hv).
      apply conflictsWithRunning_false in Hhead as [Hempty|Hall]; [contradiction|].
      rewrite conflict_sym. apply Hall; [|exact Hp2].
      apply list_elem_of_In. eapply list_elem_of_lookup_2. exact Hj.
    + apply (IH i j); try assumption. lia.
Qed.

Lemma exclusive_lookup (ops : list operation) (i j : nat) (op1 op2 : operation) :
  exclusive ops -> i <> j ->
  ops !! i = Some op1 -> ops !! j = Some op2 ->
  operationPending op1 = true -> operationPending op2 = true ->
  volumeName op1 <> EmptyUniqueVolumeName ->
  conflict (volumeName op1) (podName op1) (volumeName op2) (podName op2) = false.
Proof.
  intros Hex Hne Hi Hj Hp1 Hp2 Hv.
  destruct (Nat.lt_total i j) as [Hlt|[Heq|Hgt]]; [|contradiction|].
  - eapply exclusive_lookup_lt; eassumption.
  - destruct (conflict (volumeName op1) (podName op1) (volumeName op2) (podName op2))
      eqn:Hc; [|reflexivity].
    assert (Hv2 : volumeName op2 <> EmptyUniqueVolumeName).
    { apply conflict_true in Hc as [Heq _]. congruence. }
    rewrite conflict_sym in Hc.
    rewrite (exclusive_lookup_lt ops j i op2 op1) in Hc; auto.
Qed.

Lemma exclusive_runningUnder (ops : list operation) (v p : string) :
  exclusive ops -> v <> EmptyUniqueVolumeName ->
  (List.length
     (filter (fun op => operationPending op = true /\ volumeName op = v /\ podName op = p)
        ops) <= 1)%nat.
Proof.
  intros Hex Hv. induction ops as [|op ops IH]; [simpl; lia|].
  destruct Hex as [Hhead Htail]. rewrite filter_cons.
  case_decide as Hop; [|apply IH; exact Htail].
  destruct Hop as (Hpend & Hvol & Hpod).
  assert (Hfree : conflictsWithRunning v p ops = false).
  { rewrite <- Hvol, <- Hpod. apply Hhead; congruence. }
  apply conflictsWithRunning_false in Hfree as [Hempty|Hall]; [contradiction|].
  assert (Hnone : filter (fun op => operationPending op = true /\ volumeName op = v
                                    /\ podName op = p) ops = []).
  { destruct (filter _ ops) as [|op' l] eqn:Hf; [reflexivity|]. exfalso.
    assert (Hin : op' ∈ filter (fun op => operationPending op = true /\ volumeName op = v
                                          /\ podName op = p) ops)
      by (rewrite Hf; left).
    apply list_elem_of_filter in Hin as [(Hpend' & Hvol' & Hpod') Hin].
    apply list_elem_of_In in Hin. specialize (Hall op' Hin Hpend').
    rewrite Hvol', Hpod', conflict_same_key in Hall. discriminate. }
  rewrite Hnone. simpl. lia.
Qed.

Lemma find_sameKey_In (v p : string) (ops : list operation) (op : operation) :
  find (sameKey v p) ops = Some op -> In op ops /\ sameKey v p op = true.
Proof. intros Hfind. apply find_some in Hfind. exact Hfind. Qed.

Lemma updateFirst_marks (v p : string) (ops : list operation) (op : operation) :
  find (sameKey v p) ops = Some op ->
  In (markPending op) (updateFirst (sameKey v p) markPending ops).
Proof.
  induction ops as [|op0 ops IH]; simpl; [discriminate|].
  destruct (sameKey v p op0).
  - intros [= ->]. left. reflexivity.
  - intros Hfind. right. apply IH. exact Hfind.
Qed.

(** C1, as the registry has it.  In every state the registry can reach, two
    different running entries under a non-empty volume name never conflict,
    so at most one task runs under any key with a non-empty volume name; a
    submission under a non-empty volume name whose key conflicts with a
    running entry is answered at once with [OperationAlreadyExistsError] and
    leaves the registry as it was; a submission whose key conflicts with no
    running entry, and whose own entry is in no backoff window, is accepted
    and runs; and a submission under the empty volume name is always
    accepted, whatever is running, and runs as an entry of its own. *)
Theorem registry_runs_one_task_per_key :
  (forall r : registry,
      reachable r ->
      (forall (i j : nat) (op1 op2 : operation),
          i <> j ->
          operations r !! i = Some op1 -> operations r !! j = Some op2 ->
          operationPending op1 = true -> operationPending op2 = true ->
          volumeName op1 <> EmptyUniqueVolumeName ->
          conflict (volumeName op1) (podName op1) (volumeName op2) (podName op2) = false) /\
      (forall v p : string,
          v <> EmptyUniqueVolumeName -> (List.length (runningUnder v p r) <= 1)%nat)) /\
  (forall (Task : Type) (r : registry) (v p : string) (task : option Task),
      v <> EmptyUniqueVolumeName ->
      (exists op, In op (operations r) /\ operationPending op = true /\
                  conflict (volumeName op) (podName op) v p = true) ->
      Run v p task r = (Some (OperationAlreadyExistsError v p), r)) /\
  (forall (Task : Type) (r : registry) (v p : string) (task : option Task),
      (forall op, In op (operations r) -> operationPending op = true ->
                  conflict (volumeName op) (podName op) v p = false) ->
      (forall op, In op (operations r) -> sameKey v p op = true ->
                  retryAfter op <= now r) ->
      fst (Run v p task r) = None /\
      exists op, In op (operations (snd (Run v p task r))) /\
                 operationPending op = true /\ volumeName op = v /\ podName op = p) /\
  (forall (Task : Type) (r : registry) (p : string) (task : option Task),
      fst (Run EmptyUniqueVolumeName p task r) = None /\
      operations (snd (Run EmptyUniqueVolumeName p task r)) =
        operations r ++ [newOperation EmptyUniqueVolumeName p (now r)] /\
      List.length (running (snd (Run EmptyUniqueVolumeName p task r))) =
        S (List.length (running r))).
Proof.
  split; [|split; [|split]].
  - intros r Hreach. apply reachable_exclusive in Hreach. split.
    + intros i j op1 op2. apply exclusive_lookup. exact Hreach.
    + intros v p Hv. apply exclusive_runningUnder; assumption.
  - intros Task r v p task Hv Hconf. unfold Run, tryStart.
    rewrite bool_decide_eq_false_2 by exact Hv.
    assert (Hbusy : conflictsWithRunning v p (operations r) = true)
      by (apply conflictsWithRunning_true; auto).
    rewrite Hbusy. reflexivity.
  - intros Task r v p task Hfree Hwindow. unfold Run, tryStart.
    case_bool_decide as Hv.
    + simpl. split; [reflexivity|]. exists (newOperation v p (now r)).
      split; [apply in_or_app; right; left; reflexivity | simpl; auto].
    + assert (Hidle : conflictsWithRunning v p (operations r) = false)
        by (apply conflictsWithRunning_false; auto).
      rewrite Hidle. destruct (find (sameKey v p) (operations r)) as [op|] eqn:Hfind.
      * destruct (find_sameKey_In v p _ op Hfind) as [Hin Hkey].
        specialize (Hwindow op Hin Hkey).
        rewrite (proj2 (Z.ltb_ge (now r) (retryAfter op))) by exact Hwindow.
        simpl. split; [reflexivity|]. exists (markPending op).
        split; [apply updateFirst_marks; exact Hfind|].
        unfold sameKey in Hkey. apply andb_true_iff in Hkey as [Hkv Hkp].
        apply bool_decide_eq_true in Hkv, Hkp. simpl. auto.
      * simpl. split; [reflexivity|]. exists (newOperation v p (now r)).
        split; [apply in_or_app; right; left; reflexivity | simpl; auto].
  - intros Task r p task. unfold Run, tryStart.
    rewrite bool_decide_eq_true_2 by reflexivity. cbn [fst snd withOperations operations].
    split; [reflexivity|split; [reflexivity|]].
    change (List.length
              (filter (fun op => operationPending op = true)
                 (operations r ++ [newOperation EmptyUniqueVolumeName p (now r)])) =
            S (List.length (filter (fun op => operationPending op = true) (operations r)))).
    rewrite filter_app, length_app, filter_cons.
    case_decide as Hnew; [cbn; lia|]. exfalso. apply Hnew. reflexivity.
Qed.

End RegistryClaims.

Lemma registry_runs_one_task_per_key_witness :
  let r := snd (nestedpendingoperations.tryStart "vol1" "pod1" Fixtures.emptyRegistry) in
  (List.length (nestedpendingoperations.runningUnder "vol1" "pod1" r) <= 1)%nat /\
  nestedpendingoperations.Run "vol1" "" (Some "attach") r =
    (Some (OperationAlreadyExistsError "vol1" ""), r) /\
  fst (nestedpendingoperations.Run "vol2" "" (Some "attach") r) = None.
Proof.
  intros r.
  assert (Hreach : nestedpendingoperations.reachable r).
  { apply nestedpendingoperations.reachable_step with Fixtures.emptyRegistry.
    - apply nestedpendingoperations.reachable_new.
    - apply (nestedpendingoperations.step_Run "vol1" "pod1"). }
  split; [|split].
  - apply (proj2 (proj1 registry_runs_one_task_per_key r Hreach) "vol1" "pod1").
    vm_compute. discriminate.
  - apply (proj1 (proj2 registry_runs_one_task_per_key) string r "vol1" "" (Some "attach")).
    + vm_compute. discriminate.
    + exists (nestedpendingoperations.newOperation "vol1" "pod1" 0).
      vm_compute. auto.
  - apply (proj1 (proj2 (proj2 registry_runs_one_task_per_key))
             string r "vol2" "" (Some "attach")).
    + intros op [<-|[]] _. reflexivity.
    + intros op [<-|[]]. vm_compute. discriminate.
Defined.

(** C1 does not hold of every key.  Under the empty volume name a second
    submission is accepted although its key conflicts, by the conflict rule,
    with the entry already running, and two tasks then run under one key;
    and a submission that conflicts with nothing running is still turned
    away while its key is inside a backoff window. *)
Lemma empty_volume_key_runs_two_tasks :
  let r1 := snd (nestedpendingoperations.Run "" "" (Some "first") Fixtures.emptyRegistry) in
  let r2 := snd (nestedpendingoperations.Run "" "" (Some "second") r1) in
  let failed :=
    nestedpendingoperations.operationComplete "vol" "" (Some (OtherError "failed"))
      (snd (nestedpendingoperations.Run "vol" "" (Some "first") Fixtures.emptyRegistry)) in
  (nestedpendingoperations.reachable r2 /\
   nestedpendingoperations.conflict "" "" "" "" = true /\
   List.length (nestedpendingoperations.runningUnder "" "" r1) = 1%nat /\
   fst (nestedpendingoperations.Run "" "" (Some "second") r1) = None /\
   List.length (nestedpendingoperations.runningUnder "" "" r2) = 2%nat) /\
  (nestedpendingoperations.reachable failed /\
   nestedpendingoperations.running failed = [] /\
   fst (nestedpendingoperations.Run "vol" "" (Some "second") failed) =
     Some (ExponentialBackoffError "vol" "")).
Proof.
  intros r1 r2 failed. split; split.
  - apply nestedpendingoperations.reachable_step with r1.
    + apply nestedpendingoperations.reachable_step with Fixtures.emptyRegistry.
      * apply nestedpendingoperations.reachable_new.
      * apply (nestedpendingoperations.step_Run "" "").
    + apply (nestedpendingoperations.step_Run "" "").
  - repeat split; reflexivity.
  - apply nestedpendingoperations.reachable_step
      with (snd (nestedpendingoperations.tryStart "vol" "" Fixtures.emptyRegistry)).
    + apply nestedpendingoperations.reachable_step with Fixtures.emptyRegistry.
      * apply nestedpendingoperations.reachable_new.
      * apply (nestedpendingoperations.step_Run "vol" "").
    + apply (nestedpendingoperations.step_operationComplete "vol" "").
  - split; reflexivity.
Qed.

(** ** Per-node verification *)

Section PerNodeFacts.
Context `{OG : OperationGenerator}.
Import nestedpendingoperations.

Lemma runningUnder_append (v p : string) (r : registry) :
  List.length
    (runningUnder v p
       (withOperations r (operations r ++ [newOperation v p (now r)]))) =
  S (List.length (runningUnder v p r)).
Proof.
  unfold runningUnder. simpl. rewrite filter_app, length_app, filter_cons.
  case_decide as Hnew; [simpl; lia|]. exfalso. apply Hnew. simpl. auto.
Qed.

Lemma VerifyVolumesAreAttachedPerNode_accepted
    (vols : list AttachedVolume.t) (node : NodeName) asw (r : registry) :
  snd (GenerateVolumesAreAttachedFunc vols node asw) = None ->
  result (VerifyVolumesAreAttachedPerNode vols node asw) r = None /\
  List.length
    (runningUnder "" "" (registry_after (VerifyVolumesAreAttachedPerNode vols node asw) r)) =
  S (List.length (runningUnder "" "" r)).
Proof.
  intros Hgen. rewrite VerifyVolumesAreAttachedPerNode_verb.
  unfold result, registry_after. rewrite verb_run, Hgen. simpl.
  split; [reflexivity|]. apply (runningUnder_append "" "").
Qed.

End PerNodeFacts.

(** C7. [VerifyVolumesAreAttachedPerNode] submits the task it generated
    under (empty volume name, empty pod name) and nothing else; the registry
    accepts every submission under the empty volume name, so any number of
    per-node verifications whose task can be built are all accepted and all
    pending at once. *)
Theorem per_node_verification_is_never_serialised `{C : Collaborators} :
  (forall (OG : OperationGenerator) (R : Type) (NPO : NestedPendingOperations R)
          (attachedVolumes : list AttachedVolume.t) (nodeName : NodeName) asw (r : R),
      submitsUnder EmptyUniqueVolumeName EmptyUniquePodName
        (GenerateVolumesAreAttachedFunc attachedVolumes nodeName asw)
        (VerifyVolumesAreAttachedPerNode attachedVolumes nodeName asw) r) /\
  (forall (OG : OperationGenerator)
          (nodes : list (NodeName * list AttachedVolume.t)) asw
          (r : nestedpendingoperations.registry),
      (forall node vols,
          In (node, vols) nodes ->
          snd (GenerateVolumesAreAttachedFunc vols node asw) = None) ->
      result (verifyEachNode nodes asw) r = List.map (fun _ => None) nodes /\
      List.length
        (nestedpendingoperations.runningUnder EmptyUniqueVolumeName EmptyUniquePodName
           (registry_after (verifyEachNode nodes asw) r)) =
      (List.length
         (nestedpendingoperations.runningUnder EmptyUniqueVolumeName EmptyUniquePodName r)
       + List.length nodes)%nat).
Proof.
  split.
  - intros. rewrite VerifyVolumesAreAttachedPerNode_verb. apply verb_submitsUnder.
  - intros OG nodes asw. induction nodes as [|[node vols] nodes IH]; intros r Hgen.
    + simpl. split; [reflexivity|]. unfold registry_after. simpl. lia.
    + cbn [verifyEachNode].
      destruct (VerifyVolumesAreAttachedPerNode_accepted vols node asw r) as [Hres Hlen].
      { apply Hgen. left. reflexivity. }
      destruct (IH (registry_after (VerifyVolumesAreAttachedPerNode vols node asw) r))
        as [IHres IHlen].
      { intros node' vols' Hin. apply Hgen. right. exact Hin. }
      rewrite result_bind, registry_after_bind, result_bind, registry_after_bind.
      rewrite Hres, IHres. split; [reflexivity|].
      rewrite registry_after_ret.
      unfold EmptyUniqueVolumeName, EmptyUniquePodName in *.
      rewrite IHlen, Hlen. simpl. lia.
Qed.

Lemma per_node_verification_is_never_serialised_witness :
  let nodes := [("node1", [Fixtures.attachedVolume "b1" 3 "node1"]);
                ("node2", [Fixtures.attachedVolume "b2" 4 "node2"]);
                ("node3", [])] in
  result (verifyEachNode (OG := Fixtures.fakeOperationGenerator) nodes tt)
    Fixtures.emptyRegistry = [None; None; None] /\
  List.length
    (nestedpendingoperations.runningUnder "" ""
       (registry_after (verifyEachNode (OG := Fixtures.fakeOperationGenerator) nodes tt)
          Fixtures.emptyRegistry)) = 3%nat.
Proof.
  intros nodes.
  apply (proj2 (per_node_verification_is_never_serialised (C := Fixtures.fakeCollaborators))
           Fixtures.fakeOperationGenerator nodes tt Fixtures.emptyRegistry).
  intros node vols _. reflexivity.
Defined.

(** ** The node loop of [VerifyVolumesAreAttached] *)

Section NodeLoopFacts.
Context `{OG : OperationGenerator} {R : Type} `{!NestedPendingOperations R}.

Lemma skipLines_cons (v : AttachedVolume.t) (vols : list AttachedVolume.t) :
  skipLines (v :: vols) =
  match classify v with
  | Skipped entry => entry :: skipLines vols
  | _ => skipLines vols
  end.
Proof. unfold skipLines. simpl. destruct (classify v); reflexivity. Qed.

Lemma batchOf_cons (pluginName : string) (v : AttachedVolume.t)
    (vols : list AttachedVolume.t) :
  batchOf pluginName (v :: vols) =
  match classify v with
  | Batched name spec =>
      if bool_decide (name = pluginName)
      then spec :: batchOf pluginName vols
      else batchOf pluginName vols
  | _ => batchOf pluginName vols
  end.
Proof.
  unfold batchOf. simpl. destruct (classify v); try reflexivity.
  case_bool_decide; reflexivity.
Qed.

Lemma accumulateAll_cons (node : NodeName) (v : AttachedVolume.t)
    (vols : list AttachedVolume.t) (maps : bulkMaps) :
  accumulateAll node (v :: vols) maps =
  accumulateAll node vols
    match classify v with
    | Batched name spec => accumulate name node v spec maps
    | _ => maps
    end.
Proof. reflexivity. Qed.

(** One turn of the loop, by the verdict on the volume at hand. *)
Lemma nodeLoop_cons (node : NodeName) (all : list AttachedVolume.t) asw
    (v : AttachedVolume.t) (rest : list AttachedVolume.t) (maps : bulkMaps) :
  nodeLoop node all asw (v :: rest) maps =
  match classify v with
  | Skipped entry =>
      bind (glog_Errorf entry) (fun _ => nodeLoop node all asw rest maps)
  | Batched name spec =>
      nodeLoop node all asw rest (accumulate name node v spec maps)
  | FallsBack =>
      bind (VerifyVolumesAreAttachedPerNode all node asw)
           (fun nodeError =>
              bind (match nodeError with
                    | Some e => glog_Errorf (LogPerNodeError node e)
                    | None => ret tt
                    end)
                   (fun _ => ret maps))
  end.
Proof.
  unfold classify. cbn [nodeLoop].
  destruct (AttachedVolume.VolumeSpec v) as [spec|]; [|reflexivity].
  destruct (FindPluginBySpec spec) as [[plugin|] [e|]]; try reflexivity.
  destruct (SupportsBulkVolumeVerification plugin); reflexivity.
Qed.

(** The whole loop: the volumes ahead of the first fall-back are logged or
    batched, and the fall-back, if any, makes the per-node call for the
    whole list and logs its error. *)
Lemma nodeLoop_run (node : NodeName) (all : list AttachedVolume.t) asw
    (rest : list AttachedVolume.t) (maps : bulkMaps) (r : R) :
  nodeLoop node all asw rest maps r =
  (accumulateAll node (visited rest) maps,
   if fallsBack rest
   then registry_after (VerifyVolumesAreAttachedPerNode all node asw) r
   else r,
   (EvErrorf <$> skipLines (visited rest)) ++
   if fallsBack rest
   then trace (VerifyVolumesAreAttachedPerNode all node asw) r ++
        match result (VerifyVolumesAreAttachedPerNode all node asw) r with
        | Some e => [EvErrorf (LogPerNodeError node e)]
        | None => []
        end
   else []).
Proof.
  revert maps. induction rest as [|v rest IH]; intros maps; [reflexivity|].
  rewrite nodeLoop_cons.
  cbn [visited fallsBack existsb]. fold (fallsBack rest).
  destruct (classify v) as [entry|name spec|] eqn:Hv; cbn [isFallsBack orb].
  - unfold bind at 1, glog_Errorf. rewrite IH.
    rewrite skipLines_cons, accumulateAll_cons, Hv. reflexivity.
  - rewrite IH.
    rewrite skipLines_cons, accumulateAll_cons, Hv. reflexivity.
  - rewrite run_bind. cbv beta.
    destruct (result (VerifyVolumesAreAttachedPerNode all node asw) r); reflexivity.
Qed.

Lemma perNodeCalls_Errorf (entries : list LogEntry) :
  perNodeCalls (EvErrorf <$> entries) = [].
Proof. induction entries; [reflexivity | assumption]. Qed.

Lemma bulkCalls_Errorf (entries : list LogEntry) :
  bulkCalls (EvErrorf <$> entries) = [].
Proof. induction entries; [reflexivity | assumption]. Qed.

Lemma submissions_Errorf (entries : list LogEntry) :
  submissions (EvErrorf <$> entries) = [].
Proof. induction entries; [reflexivity | assumption]. Qed.

Lemma logged_Errorf (entries : list LogEntry) :
  logged (EvErrorf <$> entries) = entries.
Proof.
  induction entries as [|entry entries IH]; [reflexivity|].
  change (entry :: logged (EvErrorf <$> entries) = entry :: entries).
  rewrite IH. reflexivity.
Qed.

Lemma trace_VerifyVolumesAreAttachedPerNode (vols : list AttachedVolume.t)
    (node : NodeName) asw (r : R) :
  trace (VerifyVolumesAreAttachedPerNode vols node asw) r =
  EvGenerate (CallGenerateVolumesAreAttachedFunc vols node asw) ::
  match snd (GenerateVolumesAreAttachedFunc vols node asw) with
  | Some _ => []
  | None => [EvRun "" "" (fst (GenerateVolumesAreAttachedFunc vols node asw))]
  end.
Proof.
  rewrite VerifyVolumesAreAttachedPerNode_verb. unfold trace. rewrite verb_run.
  destruct (snd (GenerateVolumesAreAttachedFunc vols node asw)); reflexivity.
Qed.

Lemma nodeLoop_result (node : NodeName) (vols : list AttachedVolume.t) asw
    (maps : bulkMaps) (r : R) :
  result (nodeLoop node vols asw vols maps) r = accumulateAll node (visited vols) maps.
Proof. unfold result. rewrite nodeLoop_run. reflexivity. Qed.

Lemma nodeLoop_perNodeCalls (node : NodeName) (vols : list AttachedVolume.t) asw
    (maps : bulkMaps) (r : R) :
  perNodeCalls (trace (nodeLoop node vols asw vols maps) r) =
  if fallsBack vols then [(node, vols)] else [].
Proof.
  unfold trace. rewrite nodeLoop_run. cbn [snd].
  rewrite perNodeCalls_app, perNodeCalls_Errorf.
  destruct (fallsBack vols); [|reflexivity].
  rewrite perNodeCalls_app, trace_VerifyVolumesAreAttachedPerNode.
  destruct (snd (GenerateVolumesAreAttachedFunc vols node asw));
    destruct (result (VerifyVolumesAreAttachedPerNode vols node asw) r); reflexivity.
Qed.

Lemma nodeLoop_bulkCalls (node : NodeName) (vols : list AttachedVolume.t) asw
    (maps : bulkMaps) (r : R) :
  bulkCalls (trace (nodeLoop node vols asw vols maps) r) = [].
Proof.
  unfold trace. rewrite nodeLoop_run. cbn [snd].
  rewrite bulkCalls_app, bulkCalls_Errorf.
  destruct (fallsBack vols); [|reflexivity].
  rewrite bulkCalls_app, trace_VerifyVolumesAreAttachedPerNode.
  destruct (snd (GenerateVolumesAreAttachedFunc vols node asw));
    destruct (result (VerifyVolumesAreAttachedPerNode vols node asw) r); reflexivity.
Qed.

Lemma nodeLoop_logged (node : NodeName) (vols : list AttachedVolume.t) asw
    (maps : bulkMaps) (r : R) :
  logged (trace (nodeLoop node vols asw vols maps) r) =
  skipLines (visited vols) ++
  if fallsBack vols
  then match result (VerifyVolumesAreAttachedPerNode vols node asw) r with
       | Some e => [LogPerNodeError node e]
       | None => []
       end
  else [].
Proof.
  unfold trace. rewrite nodeLoop_run. cbn [snd].
  rewrite logged_app, logged_Errorf.
  destruct (fallsBack vols); [|reflexivity].
  rewrite logged_app, trace_VerifyVolumesAreAttachedPerNode.
  destruct (snd (GenerateVolumesAreAttachedFunc vols node asw));
    destruct (result (VerifyVolumesAreAttachedPerNode vols node asw) r); reflexivity.
Qed.

(** The loop over the nodes, entry after entry. *)
Lemma nodesLoop_result asw (entries : list (NodeName * list AttachedVolume.t))
    (maps : bulkMaps) (r : R) :
  result (nodesLoop asw entries maps) r =
  foldl (fun maps entry => accumulateAll (fst entry) (visited (snd entry)) maps)
        maps entries.
Proof.
  revert maps r. induction entries as [|[node vols] entries IH]; intros maps r;
    [reflexivity|].
  cbn [nodesLoop foldl fst snd]. rewrite result_bind, nodeLoop_result. apply IH.
Qed.

Lemma nodesLoop_perNodeCalls asw (entries : list (NodeName * list AttachedVolume.t))
    (maps : bulkMaps) (r : R) :
  perNodeCalls (trace (nodesLoop asw entries maps) r) =
  List.filter (fun entry => fallsBack (snd entry)) entries.
Proof.
  revert maps r. induction entries as [|[node vols] entries IH]; intros maps r;
    [reflexivity|].
  cbn [nodesLoop List.filter snd].
  rewrite trace_bind, perNodeCalls_app, nodeLoop_perNodeCalls, IH.
  destruct (fallsBack vols); reflexivity.
Qed.

Lemma nodesLoop_bulkCalls asw (entries : list (NodeName * list AttachedVolume.t))
    (maps : bulkMaps) (r : R) :
  bulkCalls (trace (nodesLoop asw entries maps) r) = [].
Proof.
  revert maps r. induction entries as [|[node vols] entries IH]; intros maps r;
    [reflexivity|].
  cbn [nodesLoop]. rewrite trace_bind, bulkCalls_app, nodeLoop_bulkCalls, IH.
  reflexivity.
Qed.

Lemma nodesLoop_logged asw (entries : list (NodeName * list AttachedVolume.t))
    (maps : bulkMaps) (r : R) (node : NodeName) (vols : list AttachedVolume.t)
    (entry : LogEntry) :
  In (node, vols) entries ->
  In entry (skipLines (visited vols)) ->
  In entry (logged (trace (nodesLoop asw entries maps) r)).
Proof.
  revert maps r. induction entries as [|[node' vols'] entries IH]; intros maps r;
    [intros []|].
  cbn [nodesLoop]. rewrite trace_bind, logged_app, nodeLoop_logged.
  intros [[= -> ->]|Hin] Hentry; apply in_or_app.
  - left. apply in_or_app. left. exact Hentry.
  - right. apply IH; assumption.
Qed.

End NodeLoopFacts.

(** ** The maps the partition fills *)

Section BulkMapsFacts.
Context `{OG : OperationGenerator}.

Lemma batchAt_accumulate (name : string) (node : NodeName) (v : AttachedVolume.t)
    (spec : SpecPtr) (maps : bulkMaps) (p : string) (n : NodeName) :
  batchAt (accumulate name node v spec maps) p n =
  batchAt maps p n ++
  if bool_decide (name = p) && bool_decide (node = n) then [spec] else [].
Proof.
  unfold batchAt, accumulate. cbv zeta. cbn [bulkVerifyPluginsByNode].
  case_bool_decide as Hname; cbn [andb].
  - subst p. rewrite lookup_insert_eq. cbn [default from_option id].
    case_bool_decide as Hnode.
    + subst n. rewrite lookup_insert_eq. reflexivity.
    + rewrite lookup_insert_ne by exact Hnode. rewrite app_nil_r. reflexivity.
  - rewrite lookup_insert_ne by exact Hname. rewrite app_nil_r. reflexivity.
Qed.

Lemma compact_empty : compact emptyBulkMaps.
Proof. intros p pm Hp. cbn in Hp. rewrite lookup_empty in Hp. discriminate. Qed.

Lemma compact_accumulate (name : string) (node : NodeName) (v : AttachedVolume.t)
    (spec : SpecPtr) (maps : bulkMaps) :
  compact maps -> compact (accumulate name node v spec maps).
Proof.
  intros Hc p pm. unfold accumulate. cbv zeta. cbn [bulkVerifyPluginsByNode].
  destruct (decide (name = p)) as [->|Hname].
  - rewrite lookup_insert_eq. intros [= <-]. split.
    + apply insert_non_empty.
    + intros n l. destruct (decide (node = n)) as [->|Hnode].
      * rewrite lookup_insert_eq. intros [= <-]. intros Happ.
        apply app_eq_nil in Happ as [_ Hnil]. discriminate.
      * rewrite lookup_insert_ne by exact Hnode.
        destruct (bulkVerifyPluginsByNode maps !! p) as [pm0|] eqn:Hp; cbn [default from_option id].
        -- apply (Hc p pm0 Hp).
        -- rewrite lookup_empty. discriminate.
  - rewrite lookup_insert_ne by exact Hname. apply Hc.
Qed.

Lemma batchAt_accumulateAll (node : NodeName) (vols : list AttachedVolume.t)
    (maps : bulkMaps) (p : string) (n : NodeName) :
  batchAt (accumulateAll node vols maps) p n =
  batchAt maps p n ++ if bool_decide (node = n) then batchOf p vols else [].
Proof.
  revert maps. induction vols as [|v vols IH]; intros maps.
  - cbn. case_bool_decide; rewrite app_nil_r; reflexivity.
  - rewrite accumulateAll_cons, IH, batchOf_cons.
    destruct (classify v) as [entry|name spec|]; try reflexivity.
    rewrite batchAt_accumulate, <- app_assoc. f_equal.
    repeat case_bool_decide; cbn [andb app]; reflexivity.
Qed.

Lemma compact_accumulateAll (node : NodeName) (vols : list AttachedVolume.t)
    (maps : bulkMaps) :
  compact maps -> compact (accumulateAll node vols maps).
Proof.
  revert maps. induction vols as [|v vols IH]; intros maps Hc; [exact Hc|].
  rewrite accumulateAll_cons. apply IH.
  destruct (classify v); try exact Hc. apply compact_accumulate. exact Hc.
Qed.

(** The batches after a run over the nodes [entries]. *)
Lemma batchAt_entries (entries : list (NodeName * list AttachedVolume.t))
    (maps : bulkMaps) (p : string) (n : NodeName) :
  batchAt
    (foldl (fun maps entry => accumulateAll (fst entry) (visited (snd entry)) maps)
       maps entries) p n =
  batchAt maps p n ++
  flat_map (fun entry => if bool_decide (fst entry = n)
                         then batchOf p (visited (snd entry)) else []) entries.
Proof.
  revert maps. induction entries as [|[node vols] entries IH]; intros maps.
  - cbn. rewrite app_nil_r. reflexivity.
  - cbn [foldl flat_map fst snd]. rewrite IH, batchAt_accumulateAll, <- app_assoc.
    reflexivity.
Qed.

Lemma compact_entries (entries : list (NodeName * list AttachedVolume.t))
    (maps : bulkMaps) :
  compact maps ->
  compact (foldl (fun maps entry => accumulateAll (fst entry) (visited (snd entry)) maps)
             maps entries).
Proof.
  revert maps. induction entries as [|[node vols] entries IH]; intros maps Hc;
    [exact Hc|].
  cbn [foldl]. apply IH, compact_accumulateAll, Hc.
Qed.

Lemma flat_map_absent (entries : list (NodeName * list AttachedVolume.t))
    (p : string) (n : NodeName) :
  ~ In n (List.map fst entries) ->
  flat_map (fun entry => if bool_decide (fst entry = n)
                         then batchOf p (visited (snd entry)) else []) entries = [].
Proof.
  induction entries as [|[node vols] entries IH]; [reflexivity|].
  cbn [List.map flat_map fst snd In]. intros Hnot.
  rewrite bool_decide_eq_false_2 by tauto. apply IH. tauto.
Qed.

Lemma flat_map_present (entries : list (NodeName * list AttachedVolume.t))
    (p : string) (n : NodeName) (vols : list AttachedVolume.t) :
  List.NoDup (List.map fst entries) ->
  In (n, vols) entries ->
  flat_map (fun entry => if bool_decide (fst entry = n)
                         then batchOf p (visited (snd entry)) else []) entries =
  batchOf p (visited vols).
Proof.
  induction entries as [|[node vols'] entries IH]; [intros _ []|].
  cbn [List.map flat_map fst snd]. intros Hnodup Hin.
  apply List.NoDup_cons_iff in Hnodup as [Hfresh Hnodup].
  destruct Hin as [[= -> ->]|Hin].
  - rewrite bool_decide_eq_true_2 by reflexivity.
    rewrite flat_map_absent by exact Hfresh. apply app_nil_r.
  - rewrite bool_decide_eq_false_2.
    + apply IH; assumption.
    + intros ->. apply Hfresh. apply (in_map fst) in Hin. exact Hin.
Qed.

(** A compact pair of maps is determined by its batches. *)
Lemma compact_lookup_None (maps : bulkMaps) (p : string) :
  compact maps ->
  (forall n, batchAt maps p n = []) ->
  bulkVerifyPluginsByNode maps !! p = None.
Proof.
  intros Hc Hnone. destruct (bulkVerifyPluginsByNode maps !! p) as [pm|] eqn:Hp;
    [|reflexivity].
  destruct (Hc p pm Hp) as [Hne Hlists].
  apply map_choose in Hne as (n & l & Hn).
  specialize (Hnone n). unfold batchAt in Hnone. rewrite Hp in Hnone.
  cbn [default from_option id] in Hnone. rewrite Hn in Hnone. cbn [default from_option id] in Hnone.
  exfalso. apply (Hlists n l Hn). exact Hnone.
Qed.

Lemma compact_lookup_Some (maps : bulkMaps) (p : string)
    (pm : gmap string (list SpecPtr)) (n : NodeName) :
  compact maps ->
  bulkVerifyPluginsByNode maps !! p = Some pm ->
  default [] (pm !! n) = batchAt maps p n /\
  (pm !! n = None <-> batchAt maps p n = []).
Proof.
  intros Hc Hp. unfold batchAt. rewrite Hp. cbn [default from_option id]. split; [reflexivity|].
  destruct (pm !! n) as [l|] eqn:Hn; cbn [default from_option id].
  - split; [discriminate|]. intros ->. exfalso.
    exact (proj2 (Hc p pm Hp) n [] Hn eq_refl).
  - tauto.
Qed.

Lemma compact_lookup_is_Some (maps : bulkMaps) (p : string) :
  compact maps ->
  (is_Some (bulkVerifyPluginsByNode maps !! p) <-> exists n, batchAt maps p n <> []).
Proof.
  intros Hc. split.
  - intros [pm Hp]. destruct (Hc p pm Hp) as [Hne Hlists].
    apply map_choose in Hne as (n & l & Hn). exists n.
    unfold batchAt. rewrite Hp. cbn [default from_option id]. rewrite Hn. cbn [default from_option id].
    exact (Hlists n l Hn).
  - intros [n Hn]. destruct (bulkVerifyPluginsByNode maps !! p) as [pm|] eqn:Hp;
      [eauto|].
    exfalso. apply Hn. unfold batchAt. rewrite Hp. cbn [default from_option id].
    rewrite lookup_empty. reflexivity.
Qed.

End BulkMapsFacts.

(** ** The two loops of [VerifyVolumesAreAttached] *)

Section VerifyFacts.
Context `{OG : OperationGenerator} {R : Type} `{!NestedPendingOperations R}.
Context {GR : GoMapRange}.

Lemma range_In {A : Type} (m : gmap string A) (k : string) (a : A) :
  In (k, a) (range m) <-> m !! k = Some a.
Proof.
  rewrite <- list_elem_of_In, (range_perm A m). apply elem_of_map_to_list.
Qed.

Lemma range_NoDup {A : Type} (m : gmap string A) : List.NoDup (List.map fst (range m)).
Proof.
  apply NoDup_ListNoDup.
  assert (Hperm : List.map fst (range m) ≡ₚ (map_to_list m).*1)
    by (apply fmap_Permutation, range_perm).
  rewrite Hperm. apply NoDup_fst_map_to_list.
Qed.

Lemma range_keys {A : Type} (m : gmap string A) (k : string) :
  In k (List.map fst (range m)) <-> is_Some (m !! k).
Proof.
  rewrite in_map_iff. split.
  - intros ([k' a] & <- & Hin). apply range_In in Hin. eauto.
  - intros [a Ha]. exists (k, a). split; [reflexivity|]. apply range_In. exact Ha.
Qed.

(** The batch the partition leaves for a plugin on a node: the specs of the
    node's volumes batched for the plugin ahead of the node's first
    fall-back. *)
Lemma partition_batchAt (attachedVolumes : gmap string (list AttachedVolume.t)) asw
    (r : R) (p : string) (n : NodeName) :
  batchAt (result (partitionAttachedVolumes attachedVolumes asw) r) p n =
  match attachedVolumes !! n with
  | Some vols => batchOf p (visited vols)
  | None => []
  end.
Proof.
  unfold partitionAttachedVolumes. rewrite nodesLoop_result, batchAt_entries.
  assert (Hempty : batchAt emptyBulkMaps p n = []).
  { unfold batchAt. cbn. rewrite lookup_empty. cbn. rewrite lookup_empty. reflexivity. }
  rewrite Hempty. cbn [app].
  destruct (attachedVolumes !! n) as [vols|] eqn:Hn.
  - apply flat_map_present; [apply range_NoDup | apply range_In; exact Hn].
  - apply flat_map_absent. rewrite range_keys, Hn. intros [x Hx]. discriminate.
Qed.

Lemma partition_compact (attachedVolumes : gmap string (list AttachedVolume.t)) asw
    (r : R) :
  compact (result (partitionAttachedVolumes attachedVolumes asw) r).
Proof.
  unfold partitionAttachedVolumes. rewrite nodesLoop_result.
  apply compact_entries, compact_empty.
Qed.

Lemma partition_perNodeCalls (attachedVolumes : gmap string (list AttachedVolume.t)) asw
    (r : R) :
  perNodeCalls (trace (partitionAttachedVolumes attachedVolumes asw) r) =
  List.filter (fun entry => fallsBack (snd entry)) (range attachedVolumes).
Proof. apply nodesLoop_perNodeCalls. Qed.

(** One turn of the second loop. *)
Lemma pluginsLoop_cons asw (vsm : gmap string (gmap positive UniqueVolumeName))
    (name : string) (pnv : gmap string (list SpecPtr))
    (entries : list (string * gmap string (list SpecPtr))) (r : R) :
  let gen := GenerateBulkVolumeVerifyFunc pnv name (default ∅ (vsm !! name)) asw in
  let answer := Run name "" (fst gen) r in
  trace (pluginsLoop asw vsm ((name, pnv) :: entries)) r =
  EvGenerate (CallGenerateBulkVolumeVerifyFunc pnv name (default ∅ (vsm !! name)) asw) ::
  match snd gen with
  | Some e => [EvErrorf (LogGenerateBulkVolumeVerifyFuncError name e)]
  | None => []
  end ++
  EvRun name "" (fst gen) ::
  match fst answer with
  | Some e => [EvErrorf (LogBulkRunError name e)]
  | None => []
  end ++
  trace (pluginsLoop asw vsm entries) (snd answer).
Proof.
  intros gen answer. subst gen answer.
  cbn [pluginsLoop]. unfold trace, bind, generate, glog_Errorf, pendingOperations_Run, ret.
  destruct (GenerateBulkVolumeVerifyFunc pnv name (default ∅ (vsm !! name)) asw)
    as [task [e|]]; cbn [fst snd];
    destruct (Run name "" task r) as [[e'|] r']; cbn [fst snd];
    destruct (pluginsLoop asw vsm entries r') as [[u r''] t]; reflexivity.
Qed.

Lemma pluginsLoop_submissions asw (vsm : gmap string (gmap positive UniqueVolumeName))
    (entries : list (string * gmap string (list SpecPtr))) (r : R) :
  submissions (trace (pluginsLoop asw vsm entries) r) =
  List.map (bulkSubmission asw vsm) entries.
Proof.
  revert r. induction entries as [|[name pnv] entries IH]; intros r; [reflexivity|].
  rewrite pluginsLoop_cons. cbv zeta.
  change (?e :: ?l1 ++ ?e' :: ?l2 ++ ?t) with ([e] ++ l1 ++ [e'] ++ l2 ++ t).
  rewrite !submissions_app, IH.
  destruct (snd (GenerateBulkVolumeVerifyFunc pnv name (default ∅ (vsm !! name)) asw));
    destruct (fst (Run name ""
                     (fst (GenerateBulkVolumeVerifyFunc pnv name
                             (default ∅ (vsm !! name)) asw)) r));
    reflexivity.
Qed.

Lemma pluginsLoop_bulkCalls asw (vsm : gmap string (gmap positive UniqueVolumeName))
    (entries : list (string * gmap string (list SpecPtr))) (r : R) :
  bulkCalls (trace (pluginsLoop asw vsm entries) r) = entries.
Proof.
  revert r. induction entries as [|[name pnv] entries IH]; intros r; [reflexivity|].
  rewrite pluginsLoop_cons. cbv zeta.
  change (?e :: ?l1 ++ ?e' :: ?l2 ++ ?t) with ([e] ++ l1 ++ [e'] ++ l2 ++ t).
  rewrite !bulkCalls_app, IH.
  destruct (snd (GenerateBulkVolumeVerifyFunc pnv name (default ∅ (vsm !! name)) asw));
    destruct (fst (Run name ""
                     (fst (GenerateBulkVolumeVerifyFunc pnv name
                             (default ∅ (vsm !! name)) asw)) r));
    reflexivity.
Qed.

Lemma pluginsLoop_perNodeCalls asw (vsm : gmap string (gmap positive UniqueVolumeName))
    (entries : list (string * gmap string (list SpecPtr))) (r : R) :
  perNodeCalls (trace (pluginsLoop asw vsm entries) r) = [].
Proof.
  revert r. induction entries as [|[name pnv] entries IH]; intros r; [reflexivity|].
  rewrite pluginsLoop_cons. cbv zeta.
  change (?e :: ?l1 ++ ?e' :: ?l2 ++ ?t) with ([e] ++ l1 ++ [e'] ++ l2 ++ t).
  rewrite !perNodeCalls_app, IH.
  destruct (snd (GenerateBulkVolumeVerifyFunc pnv name (default ∅ (vsm !! name)) asw));
    destruct (fst (Run name ""
                     (fst (GenerateBulkVolumeVerifyFunc pnv name
                             (default ∅ (vsm !! name)) asw)) r));
    reflexivity.
Qed.

Lemma pluginsLoop_logs_generation_error asw
    (vsm : gmap string (gmap positive UniqueVolumeName))
    (entries : list (string * gmap string (list SpecPtr))) (r : R)
    (name : string) (pnv : gmap string (list SpecPtr)) (e : Err) :
  In (name, pnv) entries ->
  snd (GenerateBulkVolumeVerifyFunc pnv name (default ∅ (vsm !! name)) asw) = Some e ->
  In (LogGenerateBulkVolumeVerifyFuncError name e)
     (logged (trace (pluginsLoop asw vsm entries) r)).
Proof.
  revert r. induction entries as [|[name' pnv'] entries IH]; intros r; [intros []|].
  intros Hin Hgen. rewrite pluginsLoop_cons. cbv zeta.
  change (?e :: ?l1 ++ ?e' :: ?l2 ++ ?t) with ([e] ++ l1 ++ [e'] ++ l2 ++ t).
  rewrite !logged_app. destruct Hin as [[= -> ->]|Hin].
  - rewrite Hgen. apply in_or_app. right. apply in_or_app. left. left. reflexivity.
  - do 4 (apply in_or_app; right). apply IH; assumption.
Qed.

End VerifyFacts.

(** ** Bulk verification: what is submitted *)

Section BulkClaims.
Context `{OG : OperationGenerator} {R : Type} `{!NestedPendingOperations R}.
Context {GR : GoMapRange}.

Lemma VerifyVolumesAreAttached_trace
    (attachedVolumes : gmap string (list AttachedVolume.t)) asw (r : R) :
  trace (VerifyVolumesAreAttached attachedVolumes asw) r =
  trace (partitionAttachedVolumes attachedVolumes asw) r ++
  trace (submitBulkVerifications
           (result (partitionAttachedVolumes attachedVolumes asw) r) asw)
        (registry_after (partitionAttachedVolumes attachedVolumes asw) r).
Proof.
  exact (trace_bind (partitionAttachedVolumes attachedVolumes asw)
           (fun maps => submitBulkVerifications maps asw) r).
Qed.

Lemma batchOf_nonempty (name : string) (vols : list AttachedVolume.t) :
  batchOf name vols <> [] <->
  exists v spec, In v vols /\ classify v = Batched name spec.
Proof.
  induction vols as [|v vols IH].
  - split; [intros Hne; contradiction | intros (v & spec & [] & _)].
  - rewrite batchOf_cons. split.
    + intros Hne. destruct (classify v) as [entry|name' spec|] eqn:Hv.
      * apply IH in Hne as (v' & spec' & Hin & Hv'). exists v', spec'. split; [right|]; auto.
      * case_bool_decide as Hname.
        -- subst name'. exists v, spec. split; [left|]; auto.
        -- apply IH in Hne as (v' & spec' & Hin & Hv'). exists v', spec'.
           split; [right|]; auto.
      * apply IH in Hne as (v' & spec' & Hin & Hv'). exists v', spec'. split; [right|]; auto.
    + intros (v' & spec' & [<-|Hin] & Hv').
      * rewrite Hv'. rewrite bool_decide_eq_true_2 by reflexivity. discriminate.
      * assert (Hrest : batchOf name vols <> []) by (apply IH; eauto).
        destruct (classify v) as [entry|name' spec|]; try exact Hrest.
        case_bool_decide; [discriminate | exact Hrest].
Qed.

Lemma filter_key_singleton {A B : Type} (key : B -> string) (f : string * A -> B)
    (entries : list (string * A)) (name : string) (a : A) :
  (forall entry, key (f entry) = fst entry) ->
  List.NoDup (List.map fst entries) ->
  In (name, a) entries ->
  List.filter (fun b => bool_decide (key b = name)) (List.map f entries) = [f (name, a)].
Proof.
  intros Hkey. induction entries as [|[name' a'] entries IH]; [intros _ []|].
  cbn [List.map List.filter fst]. intros Hnodup Hin.
  apply List.NoDup_cons_iff in Hnodup as [Hfresh Hnodup]. rewrite Hkey. cbn [fst].
  destruct Hin as [[= -> ->]|Hin].
  - rewrite bool_decide_eq_true_2 by reflexivity. f_equal.
    clear IH Hnodup. induction entries as [|[name' a'] entries IH]; [reflexivity|].
    cbn [List.map List.filter fst]. rewrite Hkey. cbn [fst].
    cbn [List.map In fst] in Hfresh.
    rewrite bool_decide_eq_false_2 by tauto. apply IH. tauto.
  - rewrite bool_decide_eq_false_2.
    + apply IH; assumption.
    + intros ->. apply Hfresh. apply (in_map fst) in Hin. exact Hin.
Qed.

(** C6. After the partition, the submissions of [VerifyVolumesAreAttached]
    are one per entry of [bulkVerifyPluginsByNode], each under (the plugin's
    name, the empty pod name) with the task generated for the plugin's
    batch; no plugin name comes twice, and the names are exactly those of
    the plugins with bulk verification for which some volume was
    accumulated. *)
Theorem one_bulk_submission_per_batched_plugin
    (attachedVolumes : gmap string (list AttachedVolume.t)) asw (r : R) :
  let maps := result (partitionAttachedVolumes attachedVolumes asw) r in
  let r1 := registry_after (partitionAttachedVolumes attachedVolumes asw) r in
  let bulk := submissions (trace (submitBulkVerifications maps asw) r1) in
  submissions (trace (VerifyVolumesAreAttached attachedVolumes asw) r) =
    submissions (trace (partitionAttachedVolumes attachedVolumes asw) r) ++ bulk /\
  bulk = List.map (bulkSubmission asw (volumeSpecMapByPlugin maps))
           (range (bulkVerifyPluginsByNode maps)) /\
  bulk ≡ₚ List.map (bulkSubmission asw (volumeSpecMapByPlugin maps))
            (map_to_list (bulkVerifyPluginsByNode maps)) /\
  List.NoDup (List.map (fun s => fst (fst s)) bulk) /\
  (forall name : string,
      In name (List.map (fun s => fst (fst s)) bulk) <->
      exists node vols v spec,
        attachedVolumes !! node = Some vols /\ In v (visited vols) /\
        classify v = Batched name spec).
Proof.
  intros maps r1 bulk.
  assert (Hbulk : bulk = List.map (bulkSubmission asw (volumeSpecMapByPlugin maps))
                           (range (bulkVerifyPluginsByNode maps)))
    by apply pluginsLoop_submissions.
  assert (Hnames : List.map (fun s => fst (fst s)) bulk =
                   List.map fst (range (bulkVerifyPluginsByNode maps))).
  { rewrite Hbulk, List.map_map. reflexivity. }
  split; [|split; [|split; [|split]]].
  - rewrite VerifyVolumesAreAttached_trace, submissions_app. reflexivity.
  - exact Hbulk.
  - rewrite Hbulk. apply Permutation_map, range_perm.
  - rewrite Hnames. apply range_NoDup.
  - intros name. rewrite Hnames, range_keys.
    rewrite (compact_lookup_is_Some maps name) by apply partition_compact.
    split.
    + intros [node Hnode]. subst maps. rewrite partition_batchAt in Hnode.
      destruct (attachedVolumes !! node) as [vols|] eqn:Hvols; [|contradiction].
      apply batchOf_nonempty in Hnode as (v & spec & Hin & Hv).
      exists node, vols, v, spec. auto.
    + intros (node & vols & v & spec & Hvols & Hin & Hv). exists node.
      subst maps. rewrite partition_batchAt, Hvols. apply batchOf_nonempty. eauto.
Qed.

(** C10. For a plugin left with a batch by the partition, when
    [GenerateBulkVolumeVerifyFunc] fails for that batch the error is logged
    and [Run] is still called, exactly once under (the plugin's name, the
    empty pod name), with the possibly nil task the failed generation
    returned. *)
Theorem failed_bulk_generation_is_logged_and_still_submitted
    (attachedVolumes : gmap string (list AttachedVolume.t)) asw (r : R)
    (name : string) (pnv : gmap string (list SpecPtr)) (task : option Task) (e : Err) :
  let maps := result (partitionAttachedVolumes attachedVolumes asw) r in
  let r1 := registry_after (partitionAttachedVolumes attachedVolumes asw) r in
  let t := trace (submitBulkVerifications maps asw) r1 in
  bulkVerifyPluginsByNode maps !! name = Some pnv ->
  GenerateBulkVolumeVerifyFunc pnv name
    (default ∅ (volumeSpecMapByPlugin maps !! name)) asw = (task, Some e) ->
  trace (VerifyVolumesAreAttached attachedVolumes asw) r =
    trace (partitionAttachedVolumes attachedVolumes asw) r ++ t /\
  In (LogGenerateBulkVolumeVerifyFuncError name e) (logged t) /\
  List.filter (fun s => bool_decide (fst (fst s) = name)) (submissions t) =
    [(name, EmptyUniquePodName, task)].
Proof.
  intros maps r1 t Hname Hgen. split; [|split].
  - apply VerifyVolumesAreAttached_trace.
  - apply pluginsLoop_logs_generation_error with pnv.
    + apply range_In. exact Hname.
    + rewrite Hgen. reflexivity.
  - subst t. unfold submitBulkVerifications. rewrite pluginsLoop_submissions.
    rewrite (filter_key_singleton (fun s => fst (fst s))
               (bulkSubmission asw (volumeSpecMapByPlugin maps)) _ name pnv).
    + unfold bulkSubmission. cbn [fst snd]. rewrite Hgen. reflexivity.
    + intros entry. reflexivity.
    + apply range_NoDup.
    + apply range_In. exact Hname.
Qed.

End BulkClaims.

Lemma failed_bulk_generation_is_logged_and_still_submitted_witness :
  let oe_partition :=
    partitionAttachedVolumes (OG := Fixtures.failingOperationGenerator)
      (GR := Fixtures.listedRange) Fixtures.nodesWithAFirst tt in
  let maps := result oe_partition Fixtures.emptyRegistry in
  let t :=
    trace (submitBulkVerifications (OG := Fixtures.failingOperationGenerator)
             (GR := Fixtures.listedRange) maps tt)
          (registry_after oe_partition Fixtures.emptyRegistry) in
  In (LogGenerateBulkVolumeVerifyFuncError "example.com/plugin-a"
        (OtherError "bulkVolumeVerify")) (logged t) /\
  List.filter (fun s => bool_decide (fst (fst s) = "example.com/plugin-a"))
    (submissions t) = [("example.com/plugin-a", "", None)].
Proof.
  intros oe_partition maps t.
  refine (proj2 (failed_bulk_generation_is_logged_and_still_submitted
                   (OG := Fixtures.failingOperationGenerator)
                   (GR := Fixtures.listedRange)
                   Fixtures.nodesWithAFirst tt Fixtures.emptyRegistry
                   "example.com/plugin-a"
                   (default ∅ (bulkVerifyPluginsByNode maps !! "example.com/plugin-a"))
                   None (OtherError "bulkVolumeVerify") _ _)).
  - vm_compute. reflexivity.
  - reflexivity.
Defined.

(** ** Bulk verification: when a node falls back *)

Section FallbackClaims.
Context `{OG : OperationGenerator} {R : Type} `{!NestedPendingOperations R}.
Context {GR : GoMapRange}.

Lemma classify_FallsBack (v : AttachedVolume.t) :
  classify v = FallsBack <->
  exists plugin, resolvesTo plugin v /\ SupportsBulkVolumeVerification plugin = false.
Proof.
  unfold classify, resolvesTo. split.
  - destruct (AttachedVolume.VolumeSpec v) as [spec|]; [|discriminate].
    destruct (FindPluginBySpec spec) as [[plugin|] [e|]] eqn:Hfind; try discriminate.
    destruct (SupportsBulkVolumeVerification plugin) eqn:Hbulk; [discriminate|].
    intros _. exists plugin. split; [|exact Hbulk]. exists spec. auto.
  - intros (plugin & (spec & -> & ->) & ->). reflexivity.
Qed.

Lemma classify_Batched (v : AttachedVolume.t) (plugin : VolumePlugin) :
  resolvesTo plugin v -> SupportsBulkVolumeVerification plugin = true ->
  exists spec, AttachedVolume.VolumeSpec v = Some spec /\
               classify v = Batched (GetPluginName plugin) spec.
Proof.
  intros (spec & Hspec & Hfind) Hbulk. exists spec. split; [exact Hspec|].
  unfold classify. rewrite Hspec, Hfind, Hbulk. reflexivity.
Qed.

Lemma classify_unresolved (v : AttachedVolume.t) (spec : SpecPtr)
    (plugin : option VolumePlugin) (err : error) :
  AttachedVolume.VolumeSpec v = Some spec ->
  FindPluginBySpec spec = (plugin, err) ->
  plugin = None \/ err <> None ->
  classify v =
  Skipped (LogFindPluginBySpecFailed (AttachedVolume.VolumeName v) spec
             (AttachedVolume.NodeName v) err).
Proof.
  intros Hspec Hfind Hbad. unfold classify. rewrite Hspec, Hfind.
  destruct plugin as [plugin|], err as [e|]; try reflexivity.
  destruct Hbad as [Hbad|Hbad]; [discriminate | contradiction].
Qed.

Lemma filter_fallsBack_In (entries : list (NodeName * list AttachedVolume.t))
    (node : NodeName) (vols : list AttachedVolume.t) :
  In (node, vols) (List.filter (fun entry => fallsBack (snd entry)) entries) <->
  In (node, vols) entries /\ fallsBack vols = true.
Proof. apply filter_In. Qed.

Lemma NoDup_keys_NoDup {A : Type} (entries : list (string * A)) :
  List.NoDup (List.map fst entries) -> List.NoDup entries.
Proof.
  induction entries as [|entry entries IH]; intros Hnodup; [constructor|].
  cbn [List.map] in Hnodup. apply List.NoDup_cons_iff in Hnodup as [Hfresh Hnodup].
  constructor; [|apply IH; exact Hnodup].
  intros Hin. apply Hfresh. apply in_map. exact Hin.
Qed.

(** The two lines the node loop logs before a [continue]. *)
Definition isSkipLine (entry : LogEntry) : bool :=
  match entry with
  | LogNilSpec _ | LogFindPluginBySpecFailed _ _ _ _ => true
  | _ => false
  end.

Lemma classify_Skipped_isSkipLine (v : AttachedVolume.t) (entry : LogEntry) :
  classify v = Skipped entry -> isSkipLine entry = true.
Proof.
  unfold classify. destruct (AttachedVolume.VolumeSpec v) as [spec|].
  - destruct (FindPluginBySpec spec) as [[plugin|] [e|]]; try (intros [= <-]; reflexivity).
    destruct (SupportsBulkVolumeVerification plugin); discriminate.
  - intros [= <-]. reflexivity.
Qed.

Lemma filter_skipLines (vols : list AttachedVolume.t) :
  List.filter isSkipLine (skipLines vols) = skipLines vols.
Proof.
  induction vols as [|v vols IH]; [reflexivity|]. rewrite skipLines_cons.
  destruct (classify v) as [entry|name spec|] eqn:Hv; try exact IH.
  cbn [List.filter]. rewrite (classify_Skipped_isSkipLine v entry Hv), IH. reflexivity.
Qed.

Lemma nodeLoop_skip_lines (node : NodeName) (vols : list AttachedVolume.t) asw
    (maps : bulkMaps) (r : R) :
  List.filter isSkipLine (logged (trace (nodeLoop node vols asw vols maps) r)) =
  skipLines (visited vols).
Proof.
  rewrite nodeLoop_logged, List.filter_app, filter_skipLines.
  destruct (fallsBack vols); [|apply app_nil_r].
  destruct (result (VerifyVolumesAreAttachedPerNode vols node asw) r); apply app_nil_r.
Qed.

Lemma nodesLoop_skip_lines asw (entries : list (NodeName * list AttachedVolume.t))
    (maps : bulkMaps) (r : R) :
  List.filter isSkipLine (logged (trace (nodesLoop asw entries maps) r)) =
  flat_map (fun entry => skipLines (visited (snd entry))) entries.
Proof.
  revert maps r. induction entries as [|[node vols] entries IH]; intros maps r;
    [reflexivity|].
  cbn [nodesLoop flat_map snd].
  rewrite trace_bind, logged_app, List.filter_app, nodeLoop_skip_lines, IH. reflexivity.
Qed.

Lemma pluginsLoop_skip_lines asw (vsm : gmap string (gmap positive UniqueVolumeName))
    (entries : list (string * gmap string (list SpecPtr))) (r : R) :
  List.filter isSkipLine (logged (trace (pluginsLoop asw vsm entries) r)) = [].
Proof.
  revert r. induction entries as [|[name pnv] entries IH]; intros r; [reflexivity|].
  rewrite pluginsLoop_cons. cbv zeta.
  change (?e :: ?l1 ++ ?e' :: ?l2 ++ ?t) with ([e] ++ l1 ++ [e'] ++ l2 ++ t).
  rewrite !logged_app, !List.filter_app, IH.
  destruct (snd (GenerateBulkVolumeVerifyFunc pnv name (default ∅ (vsm !! name)) asw));
    destruct (fst (Run name ""
                     (fst (GenerateBulkVolumeVerifyFunc pnv name
                             (default ∅ (vsm !! name)) asw)) r));
    reflexivity.
Qed.

(** C5, as the code has it.  A volume whose plugin [FindPluginBySpec] cannot
    resolve causes no fall back: it is logged and skipped, and the loop goes
    on with the node's remaining volumes.  A volume whose plugin resolves
    and lacks bulk verification falls back: for each node holding such a
    volume [VerifyVolumesAreAttachedPerNode] is called once, with the node's
    whole list, at the first such volume, and the loop over that node ends
    there: every skipped volume ahead of it is logged, and the batches hold
    the volumes ahead of it only.  The volumes behind it are not processed:
    the run of a node's loop consists of the lines and batches of the
    volumes ahead of the fall-back, the per-node call and the line logged
    for its error, and of nothing else; and the lines for skipped volumes in
    the whole log are exactly those of the volumes ahead of each node's
    first fall-back. *)
Theorem fall_back_at_the_first_volume_without_bulk_support
    (attachedVolumes : gmap string (list AttachedVolume.t)) asw (r : R) :
  let t := trace (VerifyVolumesAreAttached attachedVolumes asw) r in
  (forall v spec plugin err,
      AttachedVolume.VolumeSpec v = Some spec ->
      FindPluginBySpec spec = (plugin, err) ->
      plugin = None \/ err <> None ->
      classify v =
      Skipped (LogFindPluginBySpecFailed (AttachedVolume.VolumeName v) spec
                 (AttachedVolume.NodeName v) err)) /\
  (forall v,
      classify v = FallsBack <->
      exists plugin,
        resolvesTo plugin v /\ SupportsBulkVolumeVerification plugin = false) /\
  perNodeCalls t =
    List.filter (fun entry => fallsBack (snd entry)) (range attachedVolumes) /\
  List.NoDup (perNodeCalls t) /\
  (forall node vols,
      In (node, vols) (perNodeCalls t) <->
      attachedVolumes !! node = Some vols /\ fallsBack vols = true) /\
  (forall node vols entry,
      attachedVolumes !! node = Some vols ->
      In entry (skipLines (visited vols)) -> In entry (logged t)) /\
  (forall name node,
      batchAt (result (partitionAttachedVolumes attachedVolumes asw) r) name node =
      match attachedVolumes !! node with
      | Some vols => batchOf name (visited vols)
      | None => []
      end) /\
  (forall (node : NodeName) (vols : list AttachedVolume.t) (maps : bulkMaps) (r' : R),
      nodeLoop node vols asw vols maps r' =
      (accumulateAll node (visited vols) maps,
       if fallsBack vols
       then registry_after (VerifyVolumesAreAttachedPerNode vols node asw) r'
       else r',
       (EvErrorf <$> skipLines (visited vols)) ++
       if fallsBack vols
       then trace (VerifyVolumesAreAttachedPerNode vols node asw) r' ++
            match result (VerifyVolumesAreAttachedPerNode vols node asw) r' with
            | Some e => [EvErrorf (LogPerNodeError node e)]
            | None => []
            end
       else [])) /\
  List.filter isSkipLine (logged t) =
    flat_map (fun entry => skipLines (visited (snd entry))) (range attachedVolumes).
Proof.
  intros t.
  assert (Hcalls : perNodeCalls t =
                   List.filter (fun entry => fallsBack (snd entry)) (range attachedVolumes)).
  { subst t. rewrite VerifyVolumesAreAttached_trace, perNodeCalls_app.
    rewrite partition_perNodeCalls. unfold submitBulkVerifications.
    rewrite pluginsLoop_perNodeCalls. apply app_nil_r. }
  split; [|split; [|split; [|split; [|split; [|split; [|split; [|split]]]]]]].
  - intros v spec plugin err. apply classify_unresolved.
  - apply classify_FallsBack.
  - exact Hcalls.
  - rewrite Hcalls. apply List.NoDup_filter, NoDup_keys_NoDup, range_NoDup.
  - intros node vols. rewrite Hcalls, filter_fallsBack_In, range_In. reflexivity.
  - intros node vols entry Hvols Hentry. subst t.
    rewrite VerifyVolumesAreAttached_trace, logged_app. apply in_or_app. left.
    unfold partitionAttachedVolumes.
    apply nodesLoop_logged with node vols; [apply range_In; exact Hvols | exact Hentry].
  - intros name node. apply partition_batchAt.
  - intros node vols maps r'. apply nodeLoop_run.
  - subst t. rewrite VerifyVolumesAreAttached_trace, logged_app, List.filter_app.
    unfold partitionAttachedVolumes, submitBulkVerifications.
    rewrite nodesLoop_skip_lines, pluginsLoop_skip_lines. apply app_nil_r.
Qed.

End FallbackClaims.

Lemma fall_back_at_the_first_volume_without_bulk_support_witness :
  let t :=
    trace (VerifyVolumesAreAttached (OG := Fixtures.fakeOperationGenerator)
             (GR := Fixtures.listedRange) Fixtures.nodeWithUnknownPlugin tt)
          Fixtures.emptyRegistry in
  In (LogFindPluginBySpecFailed "u1" 7 "node1"
        (Some (OtherError "no volume plugin matched"))) (logged t).
Proof.
  intros t.
  refine (proj1 (proj2 (proj2 (proj2 (proj2 (proj2
            (fall_back_at_the_first_volume_without_bulk_support
               (OG := Fixtures.fakeOperationGenerator) (GR := Fixtures.listedRange)
               Fixtures.nodeWithUnknownPlugin tt Fixtures.emptyRegistry))))))
            "node1" [Fixtures.attachedVolume "u1" 7 "node1"] _ _ _).
  - reflexivity.
  - left. reflexivity.
Defined.

(** C5 does not hold as stated: a volume whose plugin cannot be resolved is
    logged and causes no per-node call; and once a volume without bulk
    support has fallen back, the node's next volume is not looked at (its
    plugin supports bulk verification, yet nothing is batched). *)
Lemma unresolved_plugin_causes_no_fall_back :
  let unknown :=
    trace (VerifyVolumesAreAttached (OG := Fixtures.fakeOperationGenerator)
             (GR := Fixtures.listedRange) Fixtures.nodeWithUnknownPlugin tt)
          Fixtures.emptyRegistry in
  let bFirst :=
    trace (VerifyVolumesAreAttached (OG := Fixtures.fakeOperationGenerator)
             (GR := Fixtures.listedRange) Fixtures.nodesWithBFirst tt)
          Fixtures.emptyRegistry in
  (Fixtures.fakeFindPluginBySpec 7 = (None, Some (OtherError "no volume plugin matched")) /\
   logged unknown =
     [LogFindPluginBySpecFailed "u1" 7 "node1"
        (Some (OtherError "no volume plugin matched"))] /\
   perNodeCalls unknown = [] /\
   submissions unknown = []) /\
  (Fixtures.fakeFindPluginBySpec 1 = (Some Fixtures.pluginA, None) /\
   List.length (perNodeCalls bFirst) = 2%nat /\
   bulkCalls bFirst = []).
Proof. intros unknown bFirst. repeat split; vm_compute; reflexivity. Qed.

(** ** Bulk verification over two nodes and two plugins *)

Section TwoNodeClaims.
Context `{OG : OperationGenerator} {R : Type} `{!NestedPendingOperations R}.
Context {GR : GoMapRange}.

Section Lead.
Variables pluginA pluginB : VolumePlugin.
Hypothesis bulkA : SupportsBulkVolumeVerification pluginA = true.
Hypothesis bulkB : SupportsBulkVolumeVerification pluginB = false.

Lemma classify_pluginB (v : AttachedVolume.t) :
  resolvesTo pluginB v -> classify v = FallsBack.
Proof. intros Hv. apply classify_FallsBack. exists pluginB. auto. Qed.

Lemma visited_lead (lead tail : list AttachedVolume.t) :
  Forall (resolvesTo pluginA) lead -> beginsWith pluginB tail ->
  visited (lead ++ tail) = lead.
Proof.
  intros Hlead Htail. induction Hlead as [|v lead Hv _ IH]; cbn [app visited].
  - destruct tail as [|b tail]; [reflexivity|]. cbn [visited].
    rewrite (classify_pluginB b Htail). reflexivity.
  - destruct (classify_Batched v pluginA Hv bulkA) as (spec & _ & ->).
    cbn [isFallsBack]. rewrite IH. reflexivity.
Qed.

Lemma fallsBack_lead (lead tail : list AttachedVolume.t) :
  Forall (resolvesTo pluginA) lead -> beginsWith pluginB tail ->
  fallsBack (lead ++ tail) = match tail with [] => false | _ :: _ => true end.
Proof.
  intros Hlead Htail. unfold fallsBack.
  induction Hlead as [|v lead Hv _ IH]; cbn [app existsb].
  - destruct tail as [|b tail]; [reflexivity|]. cbn [existsb].
    rewrite (classify_pluginB b Htail). reflexivity.
  - destruct (classify_Batched v pluginA Hv bulkA) as (spec & _ & ->).
    cbn [isFallsBack orb]. exact IH.
Qed.

Lemma batchOf_lead (name : string) (lead : list AttachedVolume.t) :
  Forall (resolvesTo pluginA) lead ->
  batchOf name lead =
  if bool_decide (GetPluginName pluginA = name)
  then omap AttachedVolume.VolumeSpec lead
  else [].
Proof.
  intros Hlead. induction Hlead as [|v lead Hv _ IH].
  - case_bool_decide; reflexivity.
  - rewrite batchOf_cons.
    destruct (classify_Batched v pluginA Hv bulkA) as (spec & Hspec & ->).
    rewrite IH. case_bool_decide; [|reflexivity].
    cbn. rewrite Hspec. reflexivity.
Qed.

Lemma specs_lead_nil (lead : list AttachedVolume.t) :
  Forall (resolvesTo pluginA) lead ->
  omap AttachedVolume.VolumeSpec lead = [] -> lead = [].
Proof.
  intros Hlead. destruct Hlead as [|v lead (spec & Hspec & _) _]; [reflexivity|].
  cbn. rewrite Hspec. discriminate.
Qed.

End Lead.

Lemma List_filter_Permutation {A : Type} (f : A -> bool) (l l' : list A) :
  l ≡ₚ l' -> List.filter f l ≡ₚ List.filter f l'.
Proof.
  induction 1 as [|x l l' _ IH|x y l|l l' l'' _ IH _ IH']; cbn [List.filter].
  - reflexivity.
  - destruct (f x); [constructor|]; exact IH.
  - destruct (f x), (f y); try reflexivity. constructor.
  - etransitivity; eassumption.
Qed.

Lemma range_empty {A : Type} : range (∅ : gmap string A) = [].
Proof.
  apply Permutation_nil. symmetry. rewrite (range_perm A ∅), map_to_list_empty.
  reflexivity.
Qed.

Lemma range_singleton {A : Type} (k : string) (a : A) :
  range ({[k := a]} : gmap string A) = [(k, a)].
Proof.
  apply Permutation_length_1_inv. symmetry.
  rewrite (range_perm A {[k := a]}), map_to_list_singleton. reflexivity.
Qed.

(** C4, as the code has it.  Two nodes; on each the volumes ahead of the
    first plugin-B volume ([lead]) all belong to plugin A, which supports
    bulk verification, while plugin B does not.  Then
    [VerifyVolumesAreAttachedPerNode] is called once, with the node's whole
    list, for each node that holds a plugin-B volume; the bulk submissions
    are one per call of [GenerateBulkVolumeVerifyFunc]; that call is made
    once, for plugin A, exactly when some node's list begins with a plugin-A
    volume, and its batch holds for each node the plugin-A volumes ahead of
    the node's first plugin-B volume and nothing of what comes behind it.
    All this whatever the order in which the nodes are ranged over. *)
Theorem bulk_batch_holds_the_volumes_ahead_of_the_first_fall_back
    (pluginA pluginB : VolumePlugin) (node1 node2 : NodeName)
    (lead1 tail1 lead2 tail2 : list AttachedVolume.t) asw (r : R) :
  SupportsBulkVolumeVerification pluginA = true ->
  SupportsBulkVolumeVerification pluginB = false ->
  node1 <> node2 ->
  Forall (resolvesTo pluginA) lead1 -> beginsWith pluginB tail1 ->
  Forall (resolvesTo pluginA) lead2 -> beginsWith pluginB tail2 ->
  let attachedVolumes : gmap string (list AttachedVolume.t) :=
    <[node1 := lead1 ++ tail1]> (<[node2 := lead2 ++ tail2]> ∅) in
  let t := trace (VerifyVolumesAreAttached attachedVolumes asw) r in
  let maps := result (partitionAttachedVolumes attachedVolumes asw) r in
  let bulk :=
    submissions
      (trace (submitBulkVerifications maps asw)
         (registry_after (partitionAttachedVolumes attachedVolumes asw) r)) in
  perNodeCalls t ≡ₚ
    match tail1 with [] => [] | _ :: _ => [(node1, lead1 ++ tail1)] end ++
    match tail2 with [] => [] | _ :: _ => [(node2, lead2 ++ tail2)] end /\
  bulk = List.map (bulkSubmission asw (volumeSpecMapByPlugin maps)) (bulkCalls t) /\
  (lead1 = [] -> lead2 = [] -> bulkCalls t = []) /\
  (lead1 <> [] \/ lead2 <> [] ->
   exists pnv : gmap string (list SpecPtr),
     bulkCalls t = [(GetPluginName pluginA, pnv)] /\
     default [] (pnv !! node1) = omap AttachedVolume.VolumeSpec lead1 /\
     default [] (pnv !! node2) = omap AttachedVolume.VolumeSpec lead2 /\
     forall node, node <> node1 -> node <> node2 -> pnv !! node = None).
Proof.
  intros bulkA bulkB Hnodes Hlead1 Htail1 Hlead2 Htail2 attachedVolumes t maps bulk.
  assert (Hav1 : attachedVolumes !! node1 = Some (lead1 ++ tail1))
    by apply lookup_insert_eq.
  assert (Hav2 : attachedVolumes !! node2 = Some (lead2 ++ tail2)).
  { unfold attachedVolumes. rewrite lookup_insert_ne by exact Hnodes.
    apply lookup_insert_eq. }
  assert (Hav : forall node, node <> node1 -> node <> node2 ->
                             attachedVolumes !! node = None).
  { intros node H1 H2. unfold attachedVolumes.
    rewrite lookup_insert_ne by congruence. rewrite lookup_insert_ne by congruence.
    apply lookup_empty. }
  assert (Hlist : map_to_list attachedVolumes ≡ₚ
                  [(node1, lead1 ++ tail1); (node2, lead2 ++ tail2)]).
  { unfold attachedVolumes. rewrite map_to_list_insert.
    - rewrite insert_empty, map_to_list_singleton. reflexivity.
    - rewrite lookup_insert_ne by congruence. apply lookup_empty. }
  assert (Hbatch1 : forall name,
             batchAt maps name node1 =
             if bool_decide (GetPluginName pluginA = name)
             then omap AttachedVolume.VolumeSpec lead1 else []).
  { intros name. unfold maps. rewrite partition_batchAt, Hav1.
    rewrite (visited_lead pluginA pluginB) by assumption.
    apply (batchOf_lead pluginA); assumption. }
  assert (Hbatch2 : forall name,
             batchAt maps name node2 =
             if bool_decide (GetPluginName pluginA = name)
             then omap AttachedVolume.VolumeSpec lead2 else []).
  { intros name. unfold maps. rewrite partition_batchAt, Hav2.
    rewrite (visited_lead pluginA pluginB) by assumption.
    apply (batchOf_lead pluginA); assumption. }
  assert (Hbatch : forall name node, node <> node1 -> node <> node2 ->
                                     batchAt maps name node = []).
  { intros name node H1 H2. unfold maps. rewrite partition_batchAt, Hav by assumption.
    reflexivity. }
  assert (Hcompact : compact maps) by apply partition_compact.
  assert (Hother : forall name, name <> GetPluginName pluginA ->
                                bulkVerifyPluginsByNode maps !! name = None).
  { intros name Hname. apply compact_lookup_None; [exact Hcompact|]. intros node.
    destruct (decide (node = node1)) as [->|H1];
      [rewrite Hbatch1, bool_decide_eq_false_2 by congruence; reflexivity|].
    destruct (decide (node = node2)) as [->|H2];
      [rewrite Hbatch2, bool_decide_eq_false_2 by congruence; reflexivity|].
    apply Hbatch; assumption. }
  assert (Hbulk : bulkCalls t = range (bulkVerifyPluginsByNode maps)).
  { unfold t. rewrite VerifyVolumesAreAttached_trace, bulkCalls_app.
    unfold partitionAttachedVolumes at 1. rewrite nodesLoop_bulkCalls.
    unfold submitBulkVerifications. apply pluginsLoop_bulkCalls. }
  split; [|split; [|split]].
  - unfold t. rewrite VerifyVolumesAreAttached_trace, perNodeCalls_app.
    rewrite partition_perNodeCalls. unfold submitBulkVerifications.
    rewrite pluginsLoop_perNodeCalls, app_nil_r.
    rewrite (List_filter_Permutation _ _ _ (range_perm _ attachedVolumes)).
    rewrite (List_filter_Permutation _ _ _ Hlist).
    cbn [List.filter snd].
    rewrite !(fallsBack_lead pluginA pluginB) by assumption.
    destruct tail1, tail2; reflexivity.
  - rewrite Hbulk. apply pluginsLoop_submissions.
  - intros -> ->. rewrite Hbulk.
    assert (Hempty : bulkVerifyPluginsByNode maps = ∅).
    { apply map_eq. intros name. rewrite lookup_empty.
      apply compact_lookup_None; [exact Hcompact|]. intros node.
      destruct (decide (node = node1)) as [->|H1];
        [rewrite Hbatch1; case_bool_decide; reflexivity|].
      destruct (decide (node = node2)) as [->|H2];
        [rewrite Hbatch2; case_bool_decide; reflexivity|].
      apply Hbatch; assumption. }
    rewrite Hempty. apply range_empty.
  - intros Hsome.
    assert (Hhas : is_Some (bulkVerifyPluginsByNode maps !! GetPluginName pluginA)).
    { apply compact_lookup_is_Some; [exact Hcompact|].
      destruct Hsome as [Hne|Hne].
      - exists node1. rewrite Hbatch1, bool_decide_eq_true_2 by reflexivity.
        intros Hnil. apply Hne. apply (specs_lead_nil pluginA); assumption.
      - exists node2. rewrite Hbatch2, bool_decide_eq_true_2 by reflexivity.
        intros Hnil. apply Hne. apply (specs_lead_nil pluginA); assumption. }
    destruct Hhas as [pnv Hpnv]. exists pnv.
    assert (Hsingle : bulkVerifyPluginsByNode maps = {[GetPluginName pluginA := pnv]}).
    { apply map_eq. intros name.
      destruct (decide (name = GetPluginName pluginA)) as [->|Hname].
      - rewrite lookup_singleton_eq. exact Hpnv.
      - rewrite lookup_singleton_ne by congruence. apply Hother. exact Hname. }
    split; [rewrite Hbulk, Hsingle; apply range_singleton|].
    split; [|split].
    + rewrite (proj1 (compact_lookup_Some maps _ pnv node1 Hcompact Hpnv)).
      rewrite Hbatch1, bool_decide_eq_true_2 by reflexivity. reflexivity.
    + rewrite (proj1 (compact_lookup_Some maps _ pnv node2 Hcompact Hpnv)).
      rewrite Hbatch2, bool_decide_eq_true_2 by reflexivity. reflexivity.
    + intros node H1 H2.
      apply (proj2 (compact_lookup_Some maps _ pnv node Hcompact Hpnv)).
      apply Hbatch; assumption.
Qed.

End TwoNodeClaims.

Lemma bulk_batch_holds_the_volumes_ahead_of_the_first_fall_back_witness :
  let a1 := Fixtures.attachedVolume "a1" 1 "node1" in
  let b1 := Fixtures.attachedVolume "b1" 3 "node1" in
  let a2 := Fixtures.attachedVolume "a2" 2 "node2" in
  let b2 := Fixtures.attachedVolume "b2" 4 "node2" in
  let attachedVolumes : gmap string (list AttachedVolume.t) :=
    <["node1" := [a1] ++ [b1]]> (<["node2" := [a2] ++ [b2]]> ∅) in
  let t :=
    trace (VerifyVolumesAreAttached (OG := Fixtures.fakeOperationGenerator)
             (GR := Fixtures.reversedRange) attachedVolumes tt)
          Fixtures.emptyRegistry in
  perNodeCalls t ≡ₚ [("node1", [a1] ++ [b1])] ++ [("node2", [a2] ++ [b2])] /\
  exists pnv : gmap string (list SpecPtr),
    bulkCalls t = [("example.com/plugin-a", pnv)] /\
    default [] (pnv !! "node1") = [1%positive] /\
    default [] (pnv !! "node2") = [2%positive] /\
    forall node, node <> "node1" -> node <> "node2" -> pnv !! node = None.
Proof.
  intros a1 b1 a2 b2 attachedVolumes t.
  assert (HA : forall v spec,
             AttachedVolume.VolumeSpec v = Some spec ->
             Fixtures.fakeFindPluginBySpec spec = (Some Fixtures.pluginA, None) ->
             resolvesTo (OG := Fixtures.fakeOperationGenerator) Fixtures.pluginA v)
    by (intros v spec Hspec Hfind; exists spec; auto).
  assert (HB : forall v spec,
             AttachedVolume.VolumeSpec v = Some spec ->
             Fixtures.fakeFindPluginBySpec spec = (Some Fixtures.pluginB, None) ->
             resolvesTo (OG := Fixtures.fakeOperationGenerator) Fixtures.pluginB v)
    by (intros v spec Hspec Hfind; exists spec; auto).
  destruct (bulk_batch_holds_the_volumes_ahead_of_the_first_fall_back
              (OG := Fixtures.fakeOperationGenerator) (GR := Fixtures.reversedRange)
              Fixtures.pluginA Fixtures.pluginB "node1" "node2"
              [a1] [b1] [a2] [b2] tt Fixtures.emptyRegistry)
    as (Hcalls & _ & _ & Hbatch).
  - reflexivity.
  - reflexivity.
  - discriminate.
  - constructor; [|constructor]. apply (HA a1 1%positive); reflexivity.
  - apply (HB b1 3%positive); reflexivity.
  - constructor; [|constructor]. apply (HA a2 2%positive); reflexivity.
  - apply (HB b2 4%positive); reflexivity.
  - split; [exact Hcalls|]. apply Hbatch. left. discriminate.
Defined.

(** C4 does not hold for every order of a node's volumes: with the plugin-B
    volume ahead of the plugin-A volume on both nodes, whichever way the
    nodes are ranged over, both nodes fall back and no bulk-verify task is
    generated or submitted for plugin A. *)
Lemma plugin_B_first_leaves_no_bulk_task :
  let listed :=
    trace (VerifyVolumesAreAttached (OG := Fixtures.fakeOperationGenerator)
             (GR := Fixtures.listedRange) Fixtures.nodesWithBFirst tt)
          Fixtures.emptyRegistry in
  let reversed :=
    trace (VerifyVolumesAreAttached (OG := Fixtures.fakeOperationGenerator)
             (GR := Fixtures.reversedRange) Fixtures.nodesWithBFirst tt)
          Fixtures.emptyRegistry in
  (Fixtures.fakeFindPluginBySpec 1 = (Some Fixtures.pluginA, None) /\
   Fixtures.fakeFindPluginBySpec 2 = (Some Fixtures.pluginA, None) /\
   Fixtures.fakeFindPluginBySpec 3 = (Some Fixtures.pluginB, None) /\
   Fixtures.fakeFindPluginBySpec 4 = (Some Fixtures.pluginB, None)) /\
  (List.length (perNodeCalls listed) = 2%nat /\
   bulkCalls listed = [] /\
   List.filter (fun s => bool_decide (fst (fst s) = "example.com/plugin-a"))
     (submissions listed) = []) /\
  (List.length (perNodeCalls reversed) = 2%nat /\
   bulkCalls reversed = [] /\
   List.filter (fun s => bool_decide (fst (fst s) = "example.com/plugin-a"))
     (submissions reversed) = []).
Proof. intros listed reversed. repeat split; vm_compute; reflexivity. Qed.

(** ** The executor on the registry: mounting one volume for two pods *)

Example attachable_mounts_are_serialised :
  let first := MountVolume (OG := Fixtures.fakeOperationGenerator) 0
                 (Fixtures.volumeToMount "vol" "pod-a" true) tt in
  let second := MountVolume (OG := Fixtures.fakeOperationGenerator) 0
                  (Fixtures.volumeToMount "vol" "pod-b" true) tt in
  result first Fixtures.emptyRegistry = None /\
  result second (registry_after first Fixtures.emptyRegistry) =
    Some (OperationAlreadyExistsError "vol" "").
Proof. split; reflexivity. Qed.

Example non_attachable_mounts_run_in_parallel :
  let first := MountVolume (OG := Fixtures.fakeOperationGenerator) 0
                 (Fixtures.volumeToMount "vol" "pod-a" false) tt in
  let second := MountVolume (OG := Fixtures.fakeOperationGenerator) 0
                  (Fixtures.volumeToMount "vol" "pod-b" false) tt in
  result first Fixtures.emptyRegistry = None /\
  result second (registry_after first Fixtures.emptyRegistry) = None /\
  List.length
    (nestedpendingoperations.running
       (registry_after second (registry_after first Fixtures.emptyRegistry))) = 2%nat.
Proof. repeat split; reflexivity. Qed.

(** * Further properties of the code *)

(** ** [hasMountRefs]: which references count *)

Section MountRefsMore.
Import MountRefs.

Lemma countLoop_all_contain (mountPath : string) (mountRefs : list string) (count : Z) :
  Forall (fun ref => Strings.Contains ref mountPath = true) mountRefs ->
  countLoop mountPath mountRefs count = count.
Proof.
  intros Hall. revert count.
  induction Hall as [|ref rest Href _ IH]; intros count; [reflexivity|].
  cbn [countLoop]. rewrite Href. cbn [negb]. apply IH.
Qed.

Lemma string_length_append (s1 s2 : string) :
  String.length (s1 ++ s2)%string = (String.length s1 + String.length s2)%nat.
Proof.
  induction s1 as [|c s1 IH]; [reflexivity|].
  rewrite append_String. cbn [String.length]. rewrite IH. reflexivity.
Qed.

Lemma Contains_length (s substr : string) :
  Strings.Contains s substr = true -> (String.length substr <= String.length s)%nat.
Proof.
  intros Hc. apply Contains_spec in Hc as (before & after & ->).
  rewrite !string_length_append. lia.
Qed.

Lemma foreignRefs_app (mountPath : string) (l1 l2 : list string) :
  foreignRefs mountPath (l1 ++ l2) = foreignRefs mountPath l1 ++ foreignRefs mountPath l2.
Proof. unfold foreignRefs. apply List.filter_app. Qed.

Lemma hasMountRefs_foreign (mountPath : string) (mountRefs : list string) :
  Z.of_nat (List.length mountRefs) <= GoInt.MaxInt ->
  hasMountRefs mountPath mountRefs =
  negb (Nat.eqb (List.length (foreignRefs mountPath mountRefs)) 0).
Proof.
  intros Hfit. unfold hasMountRefs. rewrite countLoop_counts by lia.
  destruct (foreignRefs mountPath mountRefs); cbn [List.length Nat.eqb negb].
  - reflexivity.
  - apply Z.ltb_lt. lia.
Qed.

(** X1. References that contain the mount path never count, however many
    there are: a slice made only of such references (the path itself,
    anything below it, anything that embeds it) gives false, and so does
    every slice when the mount path is empty, and the empty slice. *)
Theorem hasMountRefs_ignores_refs_containing_the_path :
  (forall (mountPath : string) (mountRefs : list string),
      Forall (fun ref => Strings.is_substring mountPath ref) mountRefs ->
      hasMountRefs mountPath mountRefs = false) /\
  (forall (mountPath : string) (suffixes : list string),
      hasMountRefs mountPath (List.map (fun s => (mountPath ++ s)%string) suffixes) = false) /\
  (forall mountRefs : list string, hasMountRefs "" mountRefs = false) /\
  (forall mountPath : string, hasMountRefs mountPath [] = false).
Proof.
  assert (Hmain : forall mountPath mountRefs,
             Forall (fun ref => Strings.is_substring mountPath ref) mountRefs ->
             hasMountRefs mountPath mountRefs = false).
  { intros mountPath mountRefs Hall. unfold hasMountRefs.
    rewrite countLoop_all_contain; [reflexivity|].
    eapply Forall_impl; [exact Hall|]. intros ref Href. apply Contains_spec, Href. }
  split; [exact Hmain|split; [|split]].
  - intros mountPath suffixes. apply Hmain. apply Forall_forall.
    intros ref Hin. apply list_elem_of_In, in_map_iff in Hin as (s & <- & _).
    exists EmptyString, s. reflexivity.
  - intros mountRefs. apply Hmain. apply Forall_forall. intros ref _.
    exists EmptyString, ref. reflexivity.
  - intros mountPath. reflexivity.
Qed.

Lemma hasMountRefs_ignores_refs_containing_the_path_witness :
  hasMountRefs "/mnt/pod123" ["/mnt/pod123"; "/mnt/pod123/sub"; "/var/mnt/pod123/x"] = false.
Proof.
  apply (proj1 hasMountRefs_ignores_refs_containing_the_path).
  repeat constructor.
  - exists EmptyString, EmptyString. reflexivity.
  - exists EmptyString, "/sub". reflexivity.
  - exists "/var", "/x". reflexivity.
Defined.

(** X2. A reference shorter than the mount path (a parent directory, say)
    always counts: one such reference in the slice makes [hasMountRefs]
    true. *)
Theorem hasMountRefs_counts_shorter_refs
    (mountPath : string) (mountRefs : list string) (ref : string) :
  Z.of_nat (List.length mountRefs) <= GoInt.MaxInt ->
  In ref mountRefs ->
  (String.length ref < String.length mountPath)%nat ->
  hasMountRefs mountPath mountRefs = true.
Proof.
  intros Hfit Hin Hshort. rewrite hasMountRefs_foreign by exact Hfit.
  assert (Hforeign : In ref (foreignRefs mountPath mountRefs)).
  { apply filter_In. split; [exact Hin|]. apply negb_true_iff.
    destruct (Strings.Contains ref mountPath) eqn:Hc; [|reflexivity].
    apply Contains_length in Hc. lia. }
  destruct (foreignRefs mountPath mountRefs); [destruct Hforeign | reflexivity].
Qed.

Lemma hasMountRefs_counts_shorter_refs_witness :
  hasMountRefs "/mnt/pod123" ["/mnt/pod123/sub"; "/mnt"] = true.
Proof.
  apply (hasMountRefs_counts_shorter_refs "/mnt/pod123" ["/mnt/pod123/sub"; "/mnt"] "/mnt").
  - vm_compute. discriminate.
  - right. left. reflexivity.
  - vm_compute. lia.
Defined.

(** X3. [hasMountRefs] looks at each reference on its own: over two slices
    put together it is the disjunction of its answers on the parts, and it
    does not depend on the order of the references. *)
Theorem hasMountRefs_app_and_order (mountPath : string) :
  (forall l1 l2 : list string,
      Z.of_nat (List.length (l1 ++ l2)) <= GoInt.MaxInt ->
      hasMountRefs mountPath (l1 ++ l2) =
      hasMountRefs mountPath l1 || hasMountRefs mountPath l2) /\
  (forall l l' : list string,
      Z.of_nat (List.length l) <= GoInt.MaxInt ->
      l ≡ₚ l' ->
      hasMountRefs mountPath l = hasMountRefs mountPath l').
Proof.
  split.
  - intros l1 l2 Hfit. rewrite length_app in Hfit.
    rewrite !hasMountRefs_foreign by (rewrite ?length_app; lia).
    rewrite foreignRefs_app, length_app.
    destruct (foreignRefs mountPath l1), (foreignRefs mountPath l2); reflexivity.
  - intros l l' Hfit Hperm.
    assert (Hlen : List.length l' = List.length l)
      by (symmetry; apply Permutation_length, Hperm).
    rewrite !hasMountRefs_foreign by lia.
    assert (Hforeign : foreignRefs mountPath l ≡ₚ foreignRefs mountPath l').
    { unfold foreignRefs. clear Hfit Hlen.
      induction Hperm as [|x l l' _ IH|x y l|l l' l'' _ IH _ IH']; cbn [List.filter].
      - reflexivity.
      - destruct (negb (Strings.Contains x mountPath)); [constructor|]; exact IH.
      - destruct (negb (Strings.Contains x mountPath)),
          (negb (Strings.Contains y mountPath)); try reflexivity. constructor.
      - etransitivity; eassumption. }
    rewrite (Permutation_length Hforeign). reflexivity.
Qed.

Lemma hasMountRefs_app_and_order_witness :
  hasMountRefs "/mnt/pod123" (["/mnt/pod123/sub"] ++ ["/mnt/other"]) =
  hasMountRefs "/mnt/pod123" ["/mnt/pod123/sub"] ||
  hasMountRefs "/mnt/pod123" ["/mnt/other"].
Proof.
  apply (proj1 (hasMountRefs_app_and_order "/mnt/pod123")).
  vm_compute. discriminate.
Defined.

End MountRefsMore.


(** ** [VerifyVolumesAreAttached]: nothing to verify *)

Section NothingResolves.
Context `{OG : OperationGenerator} {R : Type} `{!NestedPendingOperations R}.
Context {GR : GoMapRange}.

Lemma unresolved_Skipped (v : AttachedVolume.t) :
  unresolved v -> exists entry, classify v = Skipped entry.
Proof.
  unfold unresolved, classify.
  destruct (AttachedVolume.VolumeSpec v) as [spec|]; [|eauto].
  destruct (FindPluginBySpec spec) as [[plugin|] [e|]]; cbn [fst snd]; eauto.
  intros [Hnone|Herr]; [discriminate | contradiction].
Qed.

Lemma visited_unresolved (vols : list AttachedVolume.t) :
  Forall unresolved vols ->
  visited vols = vols /\ fallsBack vols = false /\
  List.length (skipLines vols) = List.length vols /\
  forall node maps, accumulateAll node vols maps = maps.
Proof.
  induction 1 as [|v vols Hv _ (IHv & IHf & IHl & IHa)].
  - repeat split.
  - destruct (unresolved_Skipped v Hv) as [entry Hentry].
    cbn [visited]. unfold fallsBack. cbn [existsb]. fold (fallsBack vols).
    rewrite skipLines_cons, Hentry. cbn [isFallsBack orb List.length].
    rewrite IHv, IHf, IHl. repeat split.
    intros node maps. rewrite accumulateAll_cons, Hentry. apply IHa.
Qed.

Lemma nodesLoop_unresolved asw (entries : list (NodeName * list AttachedVolume.t))
    (maps : bulkMaps) (r : R) :
  Forall (fun entry => Forall unresolved (snd entry)) entries ->
  nodesLoop asw entries maps r =
  (maps, r, EvErrorf <$> flat_map (fun entry => skipLines (snd entry)) entries).
Proof.
  induction 1 as [|[node vols] entries Hvols _ IH]; [reflexivity|].
  cbn [nodesLoop flat_map snd]. cbn [snd] in Hvols.
  destruct (visited_unresolved vols Hvols) as (Hv & Hf & _ & Ha).
  unfold bind. rewrite nodeLoop_run, Hv, Hf, Ha, IH, app_nil_r, fmap_app.
  reflexivity.
Qed.

Lemma length_flat_map_skipLines (entries : list (NodeName * list AttachedVolume.t)) :
  Forall (fun entry => Forall unresolved (snd entry)) entries ->
  List.length (flat_map (fun entry => skipLines (snd entry)) entries) =
  List.length (concat (List.map snd entries)).
Proof.
  induction 1 as [|[node vols] entries Hvols _ IH]; [reflexivity|].
  cbn [flat_map List.map concat snd]. cbn [snd] in Hvols.
  rewrite !length_app, IH.
  rewrite (proj1 (proj2 (proj2 (visited_unresolved vols Hvols)))). reflexivity.
Qed.

Lemma length_concat_Permutation {A B : Type} (l l' : list (A * list B)) :
  l ≡ₚ l' ->
  List.length (concat (List.map snd l)) = List.length (concat (List.map snd l')).
Proof.
  induction 1 as [|x l l' _ IH|x y l|l l' l'' _ IH _ IH'];
    cbn [List.map concat]; rewrite ?length_app; lia.
Qed.

(** X4. When no volume of any node resolves to a plugin (its spec is nil, or
    [FindPluginBySpec] fails or finds nothing), [VerifyVolumesAreAttached]
    leaves the registry as it was, calls no generator and submits nothing:
    all it does is log one line per volume.  In particular it does nothing
    at all on an empty map. *)
Theorem VerifyVolumesAreAttached_only_logs_unresolved_volumes
    (attachedVolumes : gmap string (list AttachedVolume.t)) asw (r : R) :
  (forall node vols v,
      attachedVolumes !! node = Some vols -> In v vols -> unresolved v) ->
  let t := trace (VerifyVolumesAreAttached attachedVolumes asw) r in
  registry_after (VerifyVolumesAreAttached attachedVolumes asw) r = r /\
  calls t = [] /\
  List.length (logged t) =
    List.length (concat (List.map snd (map_to_list attachedVolumes))).
Proof.
  intros Hall t.
  assert (Hentries : Forall (fun entry => Forall unresolved (snd entry))
                       (range attachedVolumes)).
  { apply Forall_forall. intros [node vols] Hin. apply list_elem_of_In, range_In in Hin.
    apply Forall_forall. intros v Hv. apply list_elem_of_In in Hv.
    cbn [snd] in Hv. eapply Hall; eassumption. }
  assert (Hrun : VerifyVolumesAreAttached attachedVolumes asw r =
                 (tt, r, EvErrorf <$> flat_map (fun entry => skipLines (snd entry))
                                        (range attachedVolumes))).
  { unfold VerifyVolumesAreAttached, partitionAttachedVolumes, bind.
    rewrite nodesLoop_unresolved by exact Hentries.
    unfold submitBulkVerifications, emptyBulkMaps. cbn [bulkVerifyPluginsByNode].
    rewrite range_empty. cbn [pluginsLoop ret]. rewrite app_nil_r. reflexivity. }
  subst t. unfold registry_after, trace. rewrite Hrun. cbn [fst snd].
  split; [reflexivity|split].
  - generalize (flat_map (fun entry => skipLines (snd entry)) (range attachedVolumes)).
    intros l. induction l as [|entry l IH]; [reflexivity | exact IH].
  - rewrite logged_Errorf, length_flat_map_skipLines by exact Hentries.
    apply length_concat_Permutation, range_perm.
Qed.

End NothingResolves.

Lemma VerifyVolumesAreAttached_only_logs_unresolved_volumes_witness :
  let t :=
    trace (VerifyVolumesAreAttached (OG := Fixtures.fakeOperationGenerator)
             (GR := Fixtures.listedRange) Fixtures.nodeWithUnknownPlugin tt)
          Fixtures.emptyRegistry in
  registry_after
    (VerifyVolumesAreAttached (OG := Fixtures.fakeOperationGenerator)
       (GR := Fixtures.listedRange) Fixtures.nodeWithUnknownPlugin tt)
    Fixtures.emptyRegistry = Fixtures.emptyRegistry /\
  calls t = [] /\
  List.length (logged t) =
    List.length (concat (List.map snd (map_to_list Fixtures.nodeWithUnknownPlugin))).
Proof.
  apply (VerifyVolumesAreAttached_only_logs_unresolved_volumes
           (OG := Fixtures.fakeOperationGenerator) (GR := Fixtures.listedRange)).
  intros node vols v Hvols Hin.
  destruct (decide (node = "node1")) as [->|Hne].
  - vm_compute in Hvols. injection Hvols as <-. destruct Hin as [<-|[]].
    right. discriminate.
  - unfold Fixtures.nodeWithUnknownPlugin in Hvols.
    rewrite lookup_insert_ne in Hvols by congruence.
    rewrite lookup_empty in Hvols. discriminate.
Defined.

(** ** [VerifyVolumesAreAttached]: what does not depend on the registry or on
    the order of the nodes *)

Section CallsFacts.
Context `{OG : OperationGenerator}.

(** The calls of one [VerifyVolumesAreAttachedPerNode]. *)
Definition perNodeTrace (vols : list AttachedVolume.t) (node : NodeName)
    (asw : ActualStateOfWorldAttacherUpdater) : list Event :=
  EvGenerate (CallGenerateVolumesAreAttachedFunc vols node asw) ::
  match snd (GenerateVolumesAreAttachedFunc vols node asw) with
  | Some _ => []
  | None => [EvRun "" "" (fst (GenerateVolumesAreAttachedFunc vols node asw))]
  end.

(** The calls of one turn of the second loop. *)
Definition bulkTrace (asw : ActualStateOfWorldAttacherUpdater)
    (vsm : gmap string (gmap positive UniqueVolumeName))
    (entry : string * gmap string (list SpecPtr)) : list Event :=
  [EvGenerate (CallGenerateBulkVolumeVerifyFunc (snd entry) (fst entry)
                 (default ∅ (vsm !! fst entry)) asw);
   EvRun (fst entry) ""
     (fst (GenerateBulkVolumeVerifyFunc (snd entry) (fst entry)
             (default ∅ (vsm !! fst entry)) asw))].

Lemma calls_app (t1 t2 : list Event) : calls (t1 ++ t2) = calls t1 ++ calls t2.
Proof. apply List.filter_app. Qed.

Lemma calls_Errorf (entries : list LogEntry) : calls (EvErrorf <$> entries) = [].
Proof. induction entries as [|entry entries IH]; [reflexivity | exact IH]. Qed.

Lemma calls_perNodeTrace (vols : list AttachedVolume.t) (node : NodeName) asw :
  calls (perNodeTrace vols node asw) = perNodeTrace vols node asw.
Proof.
  unfold perNodeTrace.
  destruct (snd (GenerateVolumesAreAttachedFunc vols node asw)); reflexivity.
Qed.

Context {R : Type} `{!NestedPendingOperations R}.

Lemma nodeLoop_calls (node : NodeName) (vols : list AttachedVolume.t) asw
    (maps : bulkMaps) (r : R) :
  calls (trace (nodeLoop node vols asw vols maps) r) =
  if fallsBack vols then perNodeTrace vols node asw else [].
Proof.
  unfold trace. rewrite nodeLoop_run. cbn [snd]. rewrite calls_app, calls_Errorf.
  destruct (fallsBack vols); [|reflexivity].
  rewrite calls_app, trace_VerifyVolumesAreAttachedPerNode.
  fold (perNodeTrace vols node asw). rewrite calls_perNodeTrace.
  destruct (result (VerifyVolumesAreAttachedPerNode vols node asw) r);
    cbn [app]; apply app_nil_r.
Qed.

Lemma nodesLoop_calls asw (entries : list (NodeName * list AttachedVolume.t))
    (maps : bulkMaps) (r : R) :
  calls (trace (nodesLoop asw entries maps) r) =
  flat_map (fun entry => if fallsBack (snd entry)
                         then perNodeTrace (snd entry) (fst entry) asw else [])
           entries.
Proof.
  revert maps r. induction entries as [|[node vols] entries IH]; intros maps r;
    [reflexivity|].
  cbn [nodesLoop flat_map fst snd]. rewrite trace_bind, calls_app, nodeLoop_calls, IH.
  reflexivity.
Qed.

Lemma pluginsLoop_calls asw (vsm : gmap string (gmap positive UniqueVolumeName))
    (entries : list (string * gmap string (list SpecPtr))) (r : R) :
  calls (trace (pluginsLoop asw vsm entries) r) = flat_map (bulkTrace asw vsm) entries.
Proof.
  revert r. induction entries as [|[name pnv] entries IH]; intros r; [reflexivity|].
  rewrite pluginsLoop_cons. cbv zeta.
  change (?e :: ?l1 ++ ?e' :: ?l2 ++ ?t) with ([e] ++ l1 ++ [e'] ++ l2 ++ t).
  rewrite !calls_app, IH.
  destruct (snd (GenerateBulkVolumeVerifyFunc pnv name (default ∅ (vsm !! name)) asw));
    destruct (fst (Run name ""
                     (fst (GenerateBulkVolumeVerifyFunc pnv name
                             (default ∅ (vsm !! name)) asw)) r));
    reflexivity.
Qed.

Context {GR : GoMapRange}.

(** The partition and the calls of [VerifyVolumesAreAttached], written
    without the registry. *)
Lemma partition_result_fold
    (attachedVolumes : gmap string (list AttachedVolume.t)) asw (r : R) :
  result (partitionAttachedVolumes attachedVolumes asw) r =
  foldl (fun maps entry => accumulateAll (fst entry) (visited (snd entry)) maps)
        emptyBulkMaps (range attachedVolumes).
Proof. apply nodesLoop_result. Qed.

Lemma VerifyVolumesAreAttached_calls
    (attachedVolumes : gmap string (list AttachedVolume.t)) asw (r : R) :
  let maps :=
    foldl (fun maps entry => accumulateAll (fst entry) (visited (snd entry)) maps)
          emptyBulkMaps (range attachedVolumes) in
  calls (trace (VerifyVolumesAreAttached attachedVolumes asw) r) =
  flat_map (fun entry => if fallsBack (snd entry)
                         then perNodeTrace (snd entry) (fst entry) asw else [])
           (range attachedVolumes) ++
  flat_map (bulkTrace asw (volumeSpecMapByPlugin maps))
           (range (bulkVerifyPluginsByNode maps)).
Proof.
  intros maps. rewrite VerifyVolumesAreAttached_trace, calls_app.
  rewrite partition_result_fold. fold maps.
  unfold partitionAttachedVolumes, submitBulkVerifications.
  rewrite nodesLoop_calls, pluginsLoop_calls. reflexivity.
Qed.

End CallsFacts.

(** X5. What [VerifyVolumesAreAttached] asks of the generator and submits
    does not depend on the registry: on any two registries, of any
    implementation and in any state, it makes the same generator calls and
    the same submissions in the same order; the answers of [Run] only show
    in the log. *)
Theorem VerifyVolumesAreAttached_calls_ignore_the_registry
    `{OG : OperationGenerator} {GR : GoMapRange}
    (R1 R2 : Type) (N1 : NestedPendingOperations R1) (N2 : NestedPendingOperations R2)
    (attachedVolumes : gmap string (list AttachedVolume.t)) asw (r1 : R1) (r2 : R2) :
  calls (trace (VerifyVolumesAreAttached attachedVolumes asw) r1) =
  calls (trace (VerifyVolumesAreAttached attachedVolumes asw) r2) /\
  result (partitionAttachedVolumes attachedVolumes asw) r1 =
  result (partitionAttachedVolumes attachedVolumes asw) r2.
Proof.
  split.
  - rewrite !VerifyVolumesAreAttached_calls. reflexivity.
  - rewrite !partition_result_fold. reflexivity.
Qed.

Section OrderFacts.
Context `{OG : OperationGenerator}.

Lemma compact_batchAt_eq (maps1 maps2 : bulkMaps) :
  compact maps1 -> compact maps2 ->
  (forall p n, batchAt maps1 p n = batchAt maps2 p n) ->
  bulkVerifyPluginsByNode maps1 = bulkVerifyPluginsByNode maps2.
Proof.
  intros Hc1 Hc2 Hsame. apply map_eq. intros p.
  destruct (bulkVerifyPluginsByNode maps1 !! p) as [pm1|] eqn:H1,
           (bulkVerifyPluginsByNode maps2 !! p) as [pm2|] eqn:H2.
  - f_equal. apply map_eq. intros n.
    destruct (compact_lookup_Some maps1 p pm1 n Hc1 H1) as [Hd1 Hn1].
    destruct (compact_lookup_Some maps2 p pm2 n Hc2 H2) as [Hd2 Hn2].
    rewrite <- (Hsame p n) in Hd2, Hn2.
    destruct (pm1 !! n) as [l1|] eqn:Hl1, (pm2 !! n) as [l2|] eqn:Hl2;
      cbn [default from_option id] in Hd1, Hd2.
    + congruence.
    + exfalso. assert (Hnil : batchAt maps1 p n = []) by (apply Hn2; reflexivity).
      apply (proj2 (Hc1 p pm1 H1) n l1 Hl1). congruence.
    + exfalso. assert (Hnil : batchAt maps1 p n = []) by (apply Hn1; reflexivity).
      apply (proj2 (Hc2 p pm2 H2) n l2 Hl2). congruence.
    + reflexivity.
  - exfalso.
    assert (Hsome : is_Some (bulkVerifyPluginsByNode maps1 !! p)) by eauto.
    apply compact_lookup_is_Some in Hsome as [n Hn]; [|exact Hc1].
    rewrite Hsame in Hn.
    assert (Hsome2 : is_Some (bulkVerifyPluginsByNode maps2 !! p))
      by (apply compact_lookup_is_Some; eauto).
    rewrite H2 in Hsome2. destruct Hsome2 as [x Hx]. discriminate.
  - exfalso.
    assert (Hsome : is_Some (bulkVerifyPluginsByNode maps2 !! p)) by eauto.
    apply compact_lookup_is_Some in Hsome as [n Hn]; [|exact Hc2].
    rewrite <- Hsame in Hn.
    assert (Hsome1 : is_Some (bulkVerifyPluginsByNode maps1 !! p))
      by (apply compact_lookup_is_Some; eauto).
    rewrite H1 in Hsome1. destruct Hsome1 as [x Hx]. discriminate.
  - reflexivity.
Qed.

Lemma VerifyVolumesAreAttached_bulkCalls {R : Type} `{!NestedPendingOperations R}
    {GR : GoMapRange}
    (attachedVolumes : gmap string (list AttachedVolume.t)) asw (r : R) :
  bulkCalls (trace (VerifyVolumesAreAttached attachedVolumes asw) r) =
  range (bulkVerifyPluginsByNode
           (result (partitionAttachedVolumes attachedVolumes asw) r)).
Proof.
  rewrite VerifyVolumesAreAttached_trace, bulkCalls_app.
  unfold partitionAttachedVolumes at 1. rewrite nodesLoop_bulkCalls.
  unfold submitBulkVerifications. rewrite pluginsLoop_bulkCalls. reflexivity.
Qed.

End OrderFacts.

(** X6. The batches [bulkVerifyPluginsByNode] that the first loop of
    [VerifyVolumesAreAttached] builds do not depend on the order in which Go
    ranges over [attachedVolumes]; so the plugin names and the per-node
    batches handed to [GenerateBulkVolumeVerifyFunc] are the same in every
    run, up to the order of the plugins.  The spec map handed over with
    them is not part of this statement. *)
Theorem bulk_batches_ignore_the_order_of_the_nodes
    `{OG : OperationGenerator} {R : Type} `{!NestedPendingOperations R}
    (GR1 GR2 : GoMapRange)
    (attachedVolumes : gmap string (list AttachedVolume.t)) asw (r1 r2 : R) :
  bulkVerifyPluginsByNode
    (result (partitionAttachedVolumes (GR := GR1) attachedVolumes asw) r1) =
  bulkVerifyPluginsByNode
    (result (partitionAttachedVolumes (GR := GR2) attachedVolumes asw) r2) /\
  bulkCalls (trace (VerifyVolumesAreAttached (GR := GR1) attachedVolumes asw) r1) ≡ₚ
  bulkCalls (trace (VerifyVolumesAreAttached (GR := GR2) attachedVolumes asw) r2).
Proof.
  assert (Hmaps :
    bulkVerifyPluginsByNode
      (result (partitionAttachedVolumes (GR := GR1) attachedVolumes asw) r1) =
    bulkVerifyPluginsByNode
      (result (partitionAttachedVolumes (GR := GR2) attachedVolumes asw) r2)).
  { apply compact_batchAt_eq; try apply partition_compact.
    intros p n. rewrite !partition_batchAt. reflexivity. }
  split; [exact Hmaps|].
  rewrite (VerifyVolumesAreAttached_bulkCalls (GR := GR1)).
  rewrite (VerifyVolumesAreAttached_bulkCalls (GR := GR2)).
  rewrite Hmaps.
  rewrite (range_perm (GoMapRange := GR1)), (range_perm (GoMapRange := GR2)).
  reflexivity.
Qed.

(** ** [VerifyVolumesAreAttached]: the spec map handed to the generator *)

Section SpecMapFacts.
Context `{OG : OperationGenerator}.

(** The two maps have the same plugins, and a plugin's spec map names
    exactly the specs of the plugin's batches. *)
Definition specMapAgrees (maps : bulkMaps) : Prop :=
  forall p : string,
    (bulkVerifyPluginsByNode maps !! p = None <-> volumeSpecMapByPlugin maps !! p = None) /\
    forall spec : SpecPtr,
      is_Some (default ∅ (volumeSpecMapByPlugin maps !! p) !! spec) <->
      exists node, In spec (batchAt maps p node).

(** Every name in a spec map satisfies [Q]. *)
Definition namesFrom (Q : string -> SpecPtr -> UniqueVolumeName -> Prop)
    (maps : bulkMaps) : Prop :=
  forall p m spec name,
    volumeSpecMapByPlugin maps !! p = Some m -> m !! spec = Some name -> Q p spec name.

Lemma specMapAgrees_empty : specMapAgrees emptyBulkMaps.
Proof.
  intros p. unfold batchAt. cbn [emptyBulkMaps bulkVerifyPluginsByNode volumeSpecMapByPlugin].
  rewrite !lookup_empty. cbn [default from_option id]. split; [tauto|].
  intros spec. rewrite lookup_empty. split.
  - intros [x Hx]. discriminate.
  - intros [node Hin]. rewrite lookup_empty in Hin. destruct Hin.
Qed.

Lemma specMapAgrees_accumulate (name : string) (node : NodeName)
    (v : AttachedVolume.t) (spec : SpecPtr) (maps : bulkMaps) :
  specMapAgrees maps -> specMapAgrees (accumulate name node v spec maps).
Proof.
  intros Hagree p. destruct (Hagree p) as [Hkeys Hspecs]. split.
  - unfold accumulate. cbv zeta. cbn [bulkVerifyPluginsByNode volumeSpecMapByPlugin].
    destruct (decide (name = p)) as [->|Hne].
    + rewrite !lookup_insert_eq. split; discriminate.
    + rewrite !lookup_insert_ne by exact Hne. exact Hkeys.
  - intros spec'.
    assert (Hbatch : forall n,
               batchAt (accumulate name node v spec maps) p n =
               batchAt maps p n ++
               if bool_decide (name = p) && bool_decide (node = n) then [spec] else [])
      by (intros n; apply batchAt_accumulate).
    unfold accumulate at 1. cbv zeta. cbn [volumeSpecMapByPlugin].
    destruct (decide (name = p)) as [->|Hne].
    + rewrite lookup_insert_eq. cbn [default from_option id].
      destruct (decide (spec = spec')) as [->|Hspec].
      * rewrite lookup_insert_eq. split; [|eauto]. intros _. exists node.
        rewrite Hbatch, !bool_decide_eq_true_2 by reflexivity.
        apply in_or_app. right. left. reflexivity.
      * rewrite lookup_insert_ne by exact Hspec. rewrite Hspecs. split.
        -- intros [n Hin]. exists n. rewrite Hbatch. apply in_or_app. left. exact Hin.
        -- intros [n Hin]. rewrite Hbatch in Hin. apply in_app_or in Hin as [Hin|Hin].
           ++ exists n. exact Hin.
           ++ destruct (bool_decide (p = p) && bool_decide (node = n));
                [destruct Hin as [Heq|[]]; contradiction | destruct Hin].
    + rewrite lookup_insert_ne by exact Hne. rewrite Hspecs.
      split; intros [n Hin]; exists n.
      * rewrite Hbatch, bool_decide_eq_false_2 by exact Hne. cbn [andb].
        rewrite app_nil_r. exact Hin.
      * rewrite Hbatch, bool_decide_eq_false_2 in Hin by exact Hne. cbn [andb] in Hin.
        rewrite app_nil_r in Hin. exact Hin.
Qed.

Lemma namesFrom_accumulate Q (name : string) (node : NodeName)
    (v : AttachedVolume.t) (spec : SpecPtr) (maps : bulkMaps) :
  Q name spec (AttachedVolume.VolumeName v) ->
  namesFrom Q maps -> namesFrom Q (accumulate name node v spec maps).
Proof.
  intros Hv Hnames p m spec' vn. unfold accumulate. cbv zeta.
  cbn [volumeSpecMapByPlugin].
  destruct (decide (name = p)) as [->|Hne].
  - rewrite lookup_insert_eq. intros [= <-].
    destruct (decide (spec = spec')) as [->|Hspec].
    + rewrite lookup_insert_eq. intros [= <-]. exact Hv.
    + rewrite lookup_insert_ne by exact Hspec.
      destruct (volumeSpecMapByPlugin maps !! p) as [m0|] eqn:Hp;
        cbn [default from_option id].
      * apply (Hnames p m0 spec' vn Hp).
      * rewrite lookup_empty. discriminate.
  - rewrite lookup_insert_ne by exact Hne. apply Hnames.
Qed.

Lemma accumulateAll_invariants Q (node : NodeName) (vols : list AttachedVolume.t)
    (maps : bulkMaps) :
  (forall v name spec,
      In v vols -> classify v = Batched name spec ->
      Q name spec (AttachedVolume.VolumeName v)) ->
  specMapAgrees maps /\ namesFrom Q maps ->
  specMapAgrees (accumulateAll node vols maps) /\
  namesFrom Q (accumulateAll node vols maps).
Proof.
  revert maps. induction vols as [|v vols IH]; intros maps HQ Hinv; [exact Hinv|].
  rewrite accumulateAll_cons. apply IH.
  - intros v' name spec Hin. apply HQ. right. exact Hin.
  - destruct (classify v) as [entry|name spec|] eqn:Hv; try exact Hinv.
    destruct Hinv as [Hagree Hnames]. split.
    + apply specMapAgrees_accumulate, Hagree.
    + apply namesFrom_accumulate; [|exact Hnames]. apply (HQ v name spec); auto.
      left. reflexivity.
Qed.

Lemma entries_invariants Q (entries : list (NodeName * list AttachedVolume.t))
    (maps : bulkMaps) :
  (forall node vols v name spec,
      In (node, vols) entries -> In v (visited vols) ->
      classify v = Batched name spec ->
      Q name spec (AttachedVolume.VolumeName v)) ->
  specMapAgrees maps /\ namesFrom Q maps ->
  let maps' :=
    foldl (fun maps entry => accumulateAll (fst entry) (visited (snd entry)) maps)
          maps entries in
  specMapAgrees maps' /\ namesFrom Q maps'.
Proof.
  revert maps. induction entries as [|[node vols] entries IH]; intros maps HQ Hinv;
    [exact Hinv|].
  cbn [foldl fst snd]. apply IH.
  - intros node' vols' v name spec Hin. apply (HQ node' vols'). right. exact Hin.
  - apply accumulateAll_invariants; [|exact Hinv].
    intros v name spec Hin. apply (HQ node vols). left. reflexivity. exact Hin.
Qed.

Lemma visited_In (vols : list AttachedVolume.t) (v : AttachedVolume.t) :
  In v (visited vols) -> In v vols.
Proof.
  induction vols as [|v0 vols IH]; [intros []|]. cbn [visited].
  destruct (isFallsBack (classify v0)); [intros []|].
  intros [<-|Hin]; [left; reflexivity | right; apply IH, Hin].
Qed.

Lemma classify_Batched_spec (v : AttachedVolume.t) (name : string) (spec : SpecPtr) :
  classify v = Batched name spec ->
  AttachedVolume.VolumeSpec v = Some spec /\
  exists plugin, FindPluginBySpec spec = (Some plugin, None) /\
                 SupportsBulkVolumeVerification plugin = true /\
                 GetPluginName plugin = name.
Proof.
  unfold classify. destruct (AttachedVolume.VolumeSpec v) as [spec0|]; [|discriminate].
  destruct (FindPluginBySpec spec0) as [[plugin|] [e|]] eqn:Hfind; try discriminate.
  destruct (SupportsBulkVolumeVerification plugin) eqn:Hbulk; [|discriminate].
  intros [= <- <-]. split; [reflexivity|]. exists plugin. auto.
Qed.

End SpecMapFacts.

Section SpecMapClaims.
Context `{OG : OperationGenerator} {R : Type} `{!NestedPendingOperations R}.
Context {GR : GoMapRange}.

(** X7. The two maps the first loop of [VerifyVolumesAreAttached] fills stay
    in step: they hold the same plugins, so the second loop's lookup
    [volumeSpecMapByPlugin[pluginName]] never misses; every spec of a
    plugin's batch has a volume name in the plugin's spec map; and every
    name in a spec map is the [VolumeName] of an attached volume with that
    spec that was batched for that plugin. *)
Theorem spec_map_covers_the_batches
    (attachedVolumes : gmap string (list AttachedVolume.t)) asw (r : R) :
  let maps := result (partitionAttachedVolumes attachedVolumes asw) r in
  (forall p : string,
      is_Some (bulkVerifyPluginsByNode maps !! p) <->
      is_Some (volumeSpecMapByPlugin maps !! p)) /\
  (forall p pnv node l spec,
      bulkVerifyPluginsByNode maps !! p = Some pnv ->
      pnv !! node = Some l -> In spec l ->
      exists m name, volumeSpecMapByPlugin maps !! p = Some m /\ m !! spec = Some name) /\
  (forall p m spec name,
      volumeSpecMapByPlugin maps !! p = Some m -> m !! spec = Some name ->
      exists node vols v,
        attachedVolumes !! node = Some vols /\ In v vols /\
        AttachedVolume.VolumeSpec v = Some spec /\
        AttachedVolume.VolumeName v = name /\
        classify v = Batched p spec).
Proof.
  intros maps.
  pose (Q := fun (p : string) (spec : SpecPtr) (name : UniqueVolumeName) =>
               exists node vols v,
                 attachedVolumes !! node = Some vols /\ In v vols /\
                 AttachedVolume.VolumeSpec v = Some spec /\
                 AttachedVolume.VolumeName v = name /\
                 classify v = Batched p spec).
  assert (Hinv : specMapAgrees maps /\ namesFrom Q maps).
  { unfold maps. rewrite partition_result_fold.
    apply entries_invariants.
    - intros node vols v name spec Hin Hv Hclass. exists node, vols, v.
      apply range_In in Hin. apply visited_In in Hv.
      destruct (classify_Batched_spec v name spec Hclass) as [Hspec _]. auto.
    - split; [apply specMapAgrees_empty|].
      intros p m spec name Hp. cbn in Hp. rewrite lookup_empty in Hp. discriminate. }
  destruct Hinv as [Hagree Hnames]. split; [|split].
  - intros p. destruct (Hagree p) as [Hkeys _].
    rewrite <- !not_eq_None_Some. tauto.
  - intros p pnv node l spec Hp Hnode Hin.
    destruct (Hagree p) as [Hkeys Hspecs].
    assert (Hsome : is_Some (default ∅ (volumeSpecMapByPlugin maps !! p) !! spec)).
    { apply Hspecs. exists node. unfold batchAt. rewrite Hp.
      cbn [default from_option id]. rewrite Hnode. exact Hin. }
    destruct Hsome as [name Hname].
    destruct (volumeSpecMapByPlugin maps !! p) as [m|] eqn:Hm;
      cbn [default from_option id] in Hname.
    + exists m, name. auto.
    + rewrite lookup_empty in Hname. discriminate.
  - exact Hnames.
Qed.

End SpecMapClaims.

Lemma spec_map_covers_the_batches_witness :
  let maps :=
    result (partitionAttachedVolumes (OG := Fixtures.fakeOperationGenerator)
              (GR := Fixtures.listedRange) Fixtures.nodesWithAFirst tt)
           Fixtures.emptyRegistry in
  exists m name,
    volumeSpecMapByPlugin maps !! "example.com/plugin-a" = Some m /\
    m !! 1%positive = Some name.
Proof.
  intros maps.
  refine (proj1 (proj2 (spec_map_covers_the_batches
                          (OG := Fixtures.fakeOperationGenerator)
                          (GR := Fixtures.listedRange)
                          Fixtures.nodesWithAFirst tt Fixtures.emptyRegistry))
            "example.com/plugin-a"
            (default ∅ (bulkVerifyPluginsByNode maps !! "example.com/plugin-a"))
            "node1" [1%positive] 1%positive _ _ _).
  - vm_compute. reflexivity.
  - vm_compute. reflexivity.
  - left. reflexivity.
Defined.

(** ** [VerifyVolumesAreAttached]: volumes verified twice, and the per-node
    submissions *)

Section FallbackMore.
Context `{OG : OperationGenerator} {R : Type} `{!NestedPendingOperations R}.
Context {GR : GoMapRange}.

Lemma batchOf_In (name : string) (vols : list AttachedVolume.t)
    (v : AttachedVolume.t) (spec : SpecPtr) :
  In v vols -> classify v = Batched name spec -> In spec (batchOf name vols).
Proof.
  induction vols as [|v0 vols IH]; [intros []|].
  intros [->|Hin] Hv; rewrite batchOf_cons.
  - rewrite Hv, bool_decide_eq_true_2 by reflexivity. left. reflexivity.
  - specialize (IH Hin Hv). destruct (classify v0) as [entry|name0 spec0|]; try exact IH.
    case_bool_decide; [right|]; exact IH.
Qed.

Lemma VerifyVolumesAreAttached_perNodeCalls
    (attachedVolumes : gmap string (list AttachedVolume.t)) asw (r : R) :
  perNodeCalls (trace (VerifyVolumesAreAttached attachedVolumes asw) r) =
  List.filter (fun entry => fallsBack (snd entry)) (range attachedVolumes).
Proof.
  rewrite VerifyVolumesAreAttached_trace, perNodeCalls_app, partition_perNodeCalls.
  unfold submitBulkVerifications. rewrite pluginsLoop_perNodeCalls. apply app_nil_r.
Qed.

(** X8. A volume of a bulk-capable plugin that sits ahead of the first
    volume without bulk support on its node is verified twice: its spec is
    in the batch of a [GenerateBulkVolumeVerifyFunc] call for its plugin,
    and the volume is in the list handed to
    [VerifyVolumesAreAttachedPerNode] for its node. *)
Theorem batched_volume_of_a_falling_back_node_is_verified_twice
    (attachedVolumes : gmap string (list AttachedVolume.t)) asw (r : R)
    (node : NodeName) (vols : list AttachedVolume.t) (v : AttachedVolume.t)
    (name : string) (spec : SpecPtr) :
  attachedVolumes !! node = Some vols ->
  fallsBack vols = true ->
  In v (visited vols) ->
  classify v = Batched name spec ->
  let t := trace (VerifyVolumesAreAttached attachedVolumes asw) r in
  (In (node, vols) (perNodeCalls t) /\ In v vols) /\
  exists pnv l,
    In (name, pnv) (bulkCalls t) /\ pnv !! node = Some l /\ In spec l.
Proof.
  intros Hvols Hfalls Hv Hclass t. split.
  - split; [|apply visited_In, Hv].
    unfold t. rewrite VerifyVolumesAreAttached_perNodeCalls. apply filter_In.
    split; [apply range_In, Hvols | exact Hfalls].
  - pose (maps := result (partitionAttachedVolumes attachedVolumes asw) r).
    assert (Hbatch : In spec (batchAt maps name node)).
    { unfold maps. rewrite partition_batchAt, Hvols. apply batchOf_In with v; assumption. }
    assert (Hsome : is_Some (bulkVerifyPluginsByNode maps !! name)).
    { apply compact_lookup_is_Some; [apply partition_compact|].
      exists node. intros Hnil. rewrite Hnil in Hbatch. destruct Hbatch. }
    destruct Hsome as [pnv Hpnv]. exists pnv, (batchAt maps name node).
    split; [|split; [|exact Hbatch]].
    + unfold t. rewrite VerifyVolumesAreAttached_bulkCalls. apply range_In. exact Hpnv.
    + unfold batchAt in *. rewrite Hpnv in *. cbn [default from_option id] in *.
      destruct (pnv !! node) as [l|]; [reflexivity | destruct Hbatch].
Qed.

Lemma submissions_perNodeTrace (vols : list AttachedVolume.t) (node : NodeName) asw :
  Forall (fun s => fst s = ("", "")) (submissions (perNodeTrace vols node asw)) /\
  (List.length (submissions (perNodeTrace vols node asw)) <= 1)%nat.
Proof.
  unfold perNodeTrace.
  destruct (snd (GenerateVolumesAreAttachedFunc vols node asw)); cbn.
  - split; [constructor | lia].
  - split; [repeat constructor | lia].
Qed.

Lemma submissions_calls (t : list Event) : submissions (calls t) = submissions t.
Proof.
  induction t as [|e t IH]; [reflexivity|].
  destruct e as [call|vol pod task|entry].
  - change (submissions (calls t) = submissions t). exact IH.
  - change ((vol, pod, task) :: submissions (calls t) = (vol, pod, task) :: submissions t).
    rewrite IH. reflexivity.
  - change (submissions (calls t) = submissions t). exact IH.
Qed.

(** X9. In its first loop [VerifyVolumesAreAttached] submits only under the
    empty key (empty volume name, empty pod name), and at most once per node
    of [attachedVolumes]. *)
Theorem partition_submits_under_the_empty_key_once_per_node
    (attachedVolumes : gmap string (list AttachedVolume.t)) asw (r : R) :
  let t := trace (partitionAttachedVolumes attachedVolumes asw) r in
  Forall (fun s => fst s = (EmptyUniqueVolumeName, EmptyUniquePodName)) (submissions t) /\
  (List.length (submissions t) <= size attachedVolumes)%nat.
Proof.
  intros t.
  assert (Ht : submissions t =
               submissions
                 (flat_map (fun entry => if fallsBack (snd entry)
                                         then perNodeTrace (snd entry) (fst entry) asw
                                         else [])
                    (range attachedVolumes))).
  { unfold t, partitionAttachedVolumes.
    rewrite <- (nodesLoop_calls asw (range attachedVolumes) emptyBulkMaps r).
    symmetry. apply submissions_calls. }
  assert (Hsize : size attachedVolumes = List.length (range attachedVolumes)).
  { rewrite (Permutation_length (range_perm _ attachedVolumes)).
    symmetry. apply length_map_to_list. }
  rewrite Ht, Hsize. generalize (range attachedVolumes). intros entries.
  induction entries as [|[node vols] entries [IHkey IHlen]].
  - split; [constructor | cbn; lia].
  - cbn [flat_map fst snd]. rewrite submissions_app, length_app.
    destruct (fallsBack vols).
    + destruct (submissions_perNodeTrace vols node asw) as [Hkey Hlen].
      split; [apply Forall_app; auto | cbn [List.length]; lia].
    + split; [exact IHkey | cbn [List.length app submissions]; cbn; lia].
Qed.

End FallbackMore.

Lemma batched_volume_of_a_falling_back_node_is_verified_twice_witness :
  let a1 := Fixtures.attachedVolume "a1" 1 "node1" in
  let b1 := Fixtures.attachedVolume "b1" 3 "node1" in
  let t :=
    trace (VerifyVolumesAreAttached (OG := Fixtures.fakeOperationGenerator)
             (GR := Fixtures.listedRange) Fixtures.nodesWithAFirst tt)
          Fixtures.emptyRegistry in
  (In ("node1", [a1; b1]) (perNodeCalls t) /\ In a1 [a1; b1]) /\
  exists pnv l,
    In ("example.com/plugin-a", pnv) (bulkCalls t) /\
    pnv !! "node1" = Some l /\ In 1%positive l.
Proof.
  intros a1 b1 t.
  apply (batched_volume_of_a_falling_back_node_is_verified_twice
           (OG := Fixtures.fakeOperationGenerator) (GR := Fixtures.listedRange)
           Fixtures.nodesWithAFirst tt Fixtures.emptyRegistry
           "node1" [a1; b1] a1 "example.com/plugin-a" 1%positive).
  - vm_compute. reflexivity.
  - reflexivity.
  - left. reflexivity.
  - reflexivity.
Defined.

(** ** The keys of different verbs on one volume *)

Section VerbKeys.
Context `{OG : OperationGenerator} {R : Type} `{!NestedPendingOperations R}.

Lemma verb_submission (call : GenCall) (gen : option Task * error)
    (volumeName : UniqueVolumeName) (podName : UniquePodName) (r : R)
    (v p : string) (task : option Task) :
  submissions (trace (verb call gen volumeName podName) r) = [(v, p, task)] ->
  v = volumeName /\ p = podName.
Proof.
  intros Hsub. pose proof (verb_submitsUnder call gen volumeName podName r) as Hunder.
  unfold submitsUnder in Hunder. rewrite Hsub in Hunder.
  destruct (snd gen); [discriminate|]. injection Hunder as -> -> _. auto.
Qed.

(** X10. By the conflict rule, the key [AttachVolume] submits under
    conflicts with the key of every [MountVolume] and every [UnmountVolume]
    on the same volume; and the keys of a [MountVolume] and an
    [UnmountVolume] on one volume for one pod conflict whether or not the
    plugin is attachable. *)
Theorem verbs_on_one_volume_for_one_pod_have_conflicting_keys
    (volumeToAttach : VolumeToAttach.t) (volumeToMount : VolumeToMount.t)
    (volumeToUnmount : MountedVolume.t) (waitForAttachTimeout : Z)
    aswAttacher aswMounter (r : R)
    (va pa vm pm vu pu : string) (ta tm tu : option Task) :
  VolumeToAttach.VolumeName volumeToAttach = VolumeToMount.VolumeName volumeToMount ->
  MountedVolume.VolumeName volumeToUnmount = VolumeToMount.VolumeName volumeToMount ->
  submissions (trace (AttachVolume volumeToAttach aswAttacher) r) = [(va, pa, ta)] ->
  submissions (trace (MountVolume waitForAttachTimeout volumeToMount aswMounter) r) =
    [(vm, pm, tm)] ->
  submissions (trace (UnmountVolume volumeToUnmount aswMounter) r) = [(vu, pu, tu)] ->
  nestedpendingoperations.conflict va pa vm pm = true /\
  nestedpendingoperations.conflict va pa vu pu = true /\
  (MountedVolume.PodUID volumeToUnmount =
     GetUniquePodName (VolumeToMount.Pod volumeToMount) ->
   nestedpendingoperations.conflict vm pm vu pu = true).
Proof.
  intros Hva Hvu Ha Hm Hu.
  rewrite AttachVolume_verb in Ha. apply verb_submission in Ha as [-> ->].
  rewrite MountVolume_verb in Hm. apply verb_submission in Hm as [-> ->].
  rewrite UnmountVolume_verb in Hu. apply verb_submission in Hu as [-> ->].
  rewrite Hva, Hvu. split; [|split].
  - apply conflict_empty_pod.
  - apply conflict_empty_pod.
  - intros Hpod. rewrite Hpod.
    destruct (VolumeToMount.PluginIsAttachable volumeToMount).
    + apply conflict_empty_pod.
    + apply conflict_same_key.
Qed.

End VerbKeys.

Lemma verbs_on_one_volume_for_one_pod_have_conflicting_keys_witness :
  nestedpendingoperations.conflict "vol" "" "vol" "pod-a" = true /\
  nestedpendingoperations.conflict "vol" "" "vol" "pod-a" = true /\
  ("pod-a" = "pod-a" ->
   nestedpendingoperations.conflict "vol" "pod-a" "vol" "pod-a" = true).
Proof.
  refine (verbs_on_one_volume_for_one_pod_have_conflicting_keys
            (OG := Fixtures.fakeOperationGenerator)
            (R := nestedpendingoperations.registry)
            {| VolumeToAttach.VolumeName := "vol";
               VolumeToAttach.VolumeSpec := Some 1%positive;
               VolumeToAttach.NodeName := "node1";
               VolumeToAttach.ScheduledPods := [] |}
            (Fixtures.volumeToMount "vol" "pod-a" false)
            {| MountedVolume.PodName := "pod-a";
               MountedVolume.VolumeName := "vol";
               MountedVolume.InnerVolumeSpecName := "vol";
               MountedVolume.OuterVolumeSpecName := "vol";
               MountedVolume.PluginName := "example.com/plugin-a";
               MountedVolume.PodUID := "pod-a";
               MountedVolume.VolumeGidValue := "" |}
            0 tt tt Fixtures.emptyRegistry
            "vol" "" "vol" "pod-a" "vol" "pod-a"
            (Some "attach") (Some "mount") (Some "unmount") _ _ _ _ _);
    reflexivity.
Defined.
